(** * elmjs-inspector: size attribution of an elm.js bundle

    A shallow embedding of [analyse.ts]: the extractor of top-level
    definitions ([yieldElmJsDefinitionInfos]), the position translator
    ([indexToLineColumn], [compressIndex]), the range attributor
    ([compressRange]) and the report loop of [process].

    The repository holds two versions of [analyse.ts]. The later one has
    the boundary modes of [indexToLineColumn], the alias test of
    [compressRange] and the filter on names; it is the subject here. The
    earlier one, under [src/src], is embedded in [Earlier] where it
    differs.

    Conventions of the embedding
    - character offsets, lines and columns are [Z]; a text is a [string]
      whose characters stand for the UTF-16 code units of the JS string;
    - a JS value that is a number or [null] is an [option Z] ([None] is
      [null]); arithmetic on it goes through [toNumber], as [null - 3] does;
    - the closures of [process] share an index cache and write to the
      console: both live in [State], threaded by the monad [M], which also
      carries a thrown exception;
    - the parser (esprima) and the source-map consumer are collaborators:
      the parser is a parameter of [process], the consumer a record of
      total functions;
    - [Array.prototype.sort] is the stable insertion sort. *)

From Stdlib Require Import ZArith List String Ascii Bool Lia DecimalString.
From Stdlib Require Import Sorting.Sorted Sorting.Permutation.
From Stdlib Require Import Floats.SpecFloat.
From stdpp Require Import gmap.

Import ListNotations.
Local Open Scope string_scope.
Local Open Scope list_scope.
Local Open Scope Z_scope.

(** ** JS strings *)

Module JsString.

Definition newline : ascii := "010"%char.

(** [s.split('\n')]: never empty, [''.split('\n')] is [['']]. (The
    branch for an empty [split rest] is never taken.) *)
Fixpoint split (s : string) : list string :=
  match s with
  | EmptyString => [EmptyString]
  | String c rest =>
      if Ascii.eqb c newline then EmptyString :: split rest
      else match split rest with
           | first :: others => String c first :: others
           | [] => [String c EmptyString]
           end
  end.

(** [s.length] *)
Definition length (s : string) : Z := Z.of_nat (String.length s).

(** [s.slice(0, index)]: a negative [index] counts from the end, and both
    ends are clamped to the string. *)
Definition slice0 (s : string) (index : Z) : string :=
  let len := length s in
  let to := if index <? 0 then Z.max (len + index) 0 else Z.min index len in
  String.substring 0 (Z.to_nat to) s.

(** [s.indexOf(c)] for a one-character needle: the first position, or -1. *)
Fixpoint indexOfFrom (c : ascii) (s : string) (from : Z) : Z :=
  match s with
  | EmptyString => -1
  | String d rest => if Ascii.eqb d c then from else indexOfFrom c rest (from + 1)
  end.

Definition indexOf (s : string) (c : ascii) : Z := indexOfFrom c s 0.

End JsString.

(** ** The syntax tree, as far as the extractor looks at it *)

Definition Range : Type := Z * Z.

Inductive Pattern : Type :=
| Identifier (name : string)
| ObjectPattern
| ArrayPattern.

Record VariableDeclarator : Type := mkDeclarator {
  declarator_id : Pattern;
  declarator_range : Range
}.

(** [FunctionExpression body] holds [callee.body.body], the statement list
    of the function's block. A [FunctionDeclaration] of a script always has
    an [id]. *)
Inductive Statement : Type :=
| ExpressionStatement (expression : Expression)
| FunctionDeclaration (id : string) (range : Range)
| VariableDeclaration (declarations : list VariableDeclarator)
| OtherStatement
with Expression : Type :=
| CallExpression (callee : Expression)
| FunctionExpression (body : list Statement)
| OtherExpression.

Record Program : Type := mkProgram {
  program_body : list Statement;
  program_range : Range
}.

Record DefinitionInfo : Type := mkInfo {
  info_name : string;
  info_range : Range
}.

(** ** Definition extractor

    The generators are finite, so each is the list of what it yields, in
    order; [yield*] is concatenation. *)

Definition yieldElmJsStatements (script : Program) : list Statement :=
  flat_map
    (fun e =>
       match e with
       | ExpressionStatement (CallExpression (FunctionExpression body)) => body
       | _ => []
       end)
    (program_body script).

Definition yieldFunctionDeclarationInfo (statement : Statement) : list DefinitionInfo :=
  match statement with
  | FunctionDeclaration id range => [mkInfo id range]
  | _ => []
  end.

Definition yieldVariableDeclarationInfos (statement : Statement) : list DefinitionInfo :=
  match statement with
  | VariableDeclaration declarations =>
      flat_map
        (fun declaration =>
           match declarator_id declaration with
           | Identifier name => [mkInfo name (declarator_range declaration)]
           | _ => []
           end)
        declarations
  | _ => []
  end.

Definition yieldElmJsDefinitionInfos (script : Program) : list DefinitionInfo :=
  flat_map
    (fun statement =>
       yieldFunctionDeclarationInfo statement ++ yieldVariableDeclarationInfos statement)
    (yieldElmJsStatements script).

(** ** Numbers, positions and the source-map consumer *)

(** A number or [null]. *)
Abbreviation JsNumber := (option Z).

(** ToNumber, as the operators [-] and [<] apply it: [null] is [0]. *)
Definition toNumber (v : JsNumber) : Z :=
  match v with
  | Some n => n
  | None => 0
  end.

Definition toNumbers (r : JsNumber * JsNumber) : Range :=
  (toNumber (fst r), toNumber (snd r)).

(** [rangeSize([start, end])] *)
Definition rangeSize (r : Range) : Z := snd r - fst r.

Record LineColumn : Type := mkLineColumn {
  line : Z;    (* 1-based *)
  column : Z   (* 0-based *)
}.

(** The two lookups of a source-map consumer that [process] calls.
    [generatedPositionFor] answers [None] for [{ line: null, column: null }],
    the position that has no mapping. [originalPositionFor] only feeds the
    diagnostic. *)
Record SourceMapConsumer : Type := mkConsumer {
  generatedPositionFor : LineColumn -> option LineColumn;
  originalPositionFor : option LineColumn -> option LineColumn
}.

(** ** Console output and exceptions *)

Record MappedEndpoint : Type := mkMappedEndpoint {
  endpoint_line : Z;
  endpoint_column : Z;
  endpoint_mapped : option LineColumn;    (* JSON.stringify(generated) *)
  endpoint_remapped : option LineColumn   (* JSON.stringify(originalPositionFor(generated)) *)
}.

(** The object logged for a negative range that is not an alias. *)
Record Diagnostic : Type := mkDiagnostic {
  diagnostic_name : string;
  diagnostic_range : Range;
  diagnostic_lineColumn : LineColumn * LineColumn;
  diagnostic_mapped : MappedEndpoint * MappedEndpoint;
  diagnostic_compressed : JsNumber * JsNumber
}.

(** What [Console.log] receives. An entry line and the summary line keep
    the numbers they are printed from; [render] below gives their text. *)
Inductive ConsoleLine : Type :=
| LogText (text : string)
| LogDiagnostic (d : Diagnostic)
| LogEntry (rs compressedSize : Z) (name : string)
| LogSummary (rangeSum compressedSize : Z).

Inductive Exception : Type :=
| TypeError        (* a property read on null or undefined *)
| SyntaxError      (* thrown by the parser *)
| TerserError      (* 'Error running terser.' *)
| InvalidNegativeRange.  (* new Error('Invalid negative range') *)

(** ** The monad of [process]: index cache, console, exceptions *)

Record State : Type := mkState {
  indexCache : gmap Z JsNumber;
  console : list ConsoleLine
}.

Inductive Result (A : Type) : Type :=
| Ok (a : A) (s : State)
| Throw (e : Exception) (s : State).
Arguments Ok {A} a s.
Arguments Throw {A} e s.

Definition M (A : Type) : Type := State -> Result A.

Definition ret {A} (a : A) : M A := fun s => Ok a s.

Definition bind {A B} (m : M A) (k : A -> M B) : M B :=
  fun s =>
    match m s with
    | Ok a s' => k a s'
    | Throw e s' => Throw e s'
    end.

Definition throw {A} (e : Exception) : M A := fun s => Throw e s.

Definition consoleLog (l : ConsoleLine) : M unit :=
  fun s => Ok tt (mkState (indexCache s) (console s ++ [l])).

Definition cacheLookup (index : Z) : M (option JsNumber) :=
  fun s => Ok (indexCache s !! index) s.

Definition cacheStore (index : Z) (v : JsNumber) : M unit :=
  fun s => Ok tt (mkState (<[index := v]> (indexCache s)) (console s)).

Definition liftResult {A} (r : Exception + A) : M A :=
  match r with
  | inl e => throw e
  | inr a => ret a
  end.

Declare Scope js_scope.
Delimit Scope js_scope with js.
Notation "x <- m ;; k" := (bind m (fun x => k))
  (at level 100, m at next level, right associativity) : js_scope.
Notation "m ;;; k" := (bind m (fun _ => k))
  (at level 100, right associativity) : js_scope.
Local Open Scope js_scope.

(** ** The closures of [process] *)

Section Closures.

Variable code : string.
Variable compressedSplat : list string.
Variable consumer : option SourceMapConsumer.

Definition indexToLineColumn (index : Z) (right : bool) : LineColumn :=
  let index := if right then index - 1 else index in
  let beforeSlice := JsString.slice0 code index in
  let splat := JsString.split beforeSlice in
  mkLineColumn (Z.of_nat (List.length splat))
               (JsString.length (List.last splat EmptyString)).

(** The loop of [compressIndex]: [count] iterations are left,
    [lineNumber] is the loop variable. Reading [.length] of a line that
    [compressedSplat] does not have throws. *)
Fixpoint addLineLengths (count : nat) (lineNumber : Z) (result : Z) : Exception + Z :=
  match count with
  | O => inr result
  | S count' =>
      match compressedSplat !! Z.to_nat (lineNumber - 1) with
      | Some l => addLineLengths count' (lineNumber + 1) (result + JsString.length l + 1)
      | None => inl TypeError
      end
  end.

(** The offset in the compressed text of a generated position; [null]
    for the position without mapping ([1 < null] is false, so the loop
    does not run). *)
Definition generatedOffset (mapped : option LineColumn) : Exception + JsNumber :=
  match mapped with
  | None => inr None
  | Some p =>
      match addLineLengths (Z.to_nat (line p - 1)) 1 (column p) with
      | inr result => inr (Some result)
      | inl e => inl e
      end
  end.

Definition compressIndex (index : Z) (right : bool) : M JsNumber :=
  match consumer with
  | None => ret (Some index)
  | Some c =>
      cached <- cacheLookup index ;;
      match cached with
      | Some v => ret v
      | None =>
          let lc := indexToLineColumn index right in
          let mapped := generatedPositionFor c lc in
          result <- liftResult (generatedOffset mapped) ;;
          (cacheStore index result ;;;
           ret result)
      end
  end.

Definition endpointDiagnostic (c : SourceMapConsumer) (index : Z) (right : bool)
  : MappedEndpoint :=
  let lc := indexToLineColumn index right in
  let generated := generatedPositionFor c lc in
  mkMappedEndpoint (line lc) (column lc) generated (originalPositionFor c generated).

Definition compressRange (info : DefinitionInfo) : M (option (JsNumber * JsNumber)) :=
  let name := info_name info in
  let range := info_range info in
  start' <- compressIndex (fst range) false ;;
  end' <- compressIndex (snd range) true ;;
  let result := (start', end') in
  if rangeSize (toNumbers result) <? 0 then
    if line (indexToLineColumn (fst range) false)
       =? line (indexToLineColumn (snd range) true)
    then ret None
    else
      match consumer with
      | None => throw TypeError
      | Some c =>
          consoleLog
            (LogDiagnostic
               (mkDiagnostic name range
                  (indexToLineColumn (fst range) false,
                   indexToLineColumn (snd range) true)
                  (endpointDiagnostic c (fst range) false,
                   endpointDiagnostic c (snd range) true)
                  result)) ;;;
          ret None
      end
  else ret (Some result).

End Closures.

(** ** Rendering: [percentage] and the text of a console line

    A JS number is an IEEE 754 binary64 value; [SpecFloat] gives division
    and multiplication with their rounding. Character offsets are
    integers below 2^53, which binary64 holds exactly. *)

Module JsNumberText.

Definition prec : Z := 53.
Definition emax : Z := 1024.

Definition ofInteger (z : Z) : spec_float := binary_normalize prec emax z 0 false.

(** [String(n)] for an integer. *)
Definition integerText (n : Z) : string := NilZero.string_of_int (Z.to_int n).

Fixpoint zeros (n : nat) : string :=
  match n with
  | O => EmptyString
  | S n' => String "0"%char (zeros n')
  end.

(** The digits of [n / 1000] with three decimals, for [0 <= n]. *)
Definition fixed3 (n : Z) : string :=
  let m := integerText n in
  let k := String.length m in
  let m := if (k <=? 3)%nat then (zeros (4 - k) ++ m)%string else m in
  let k := String.length m in
  (String.substring 0 (k - 3) m ++ "." ++ String.substring (k - 3) 3 m)%string.

(** [x.toFixed(3)]. The integer [n] with [n / 1000] nearest to [x] is
    computed exactly, the larger one on a tie. From 10^21 on JS prints the
    exponent notation of [String(x)], which is left out: [None]. *)
Definition toFixed3 (x : spec_float) : option string :=
  match x with
  | S754_nan => Some "NaN"
  | S754_infinity false => Some "Infinity"
  | S754_infinity true => Some "-Infinity"
  | S754_zero _ => Some "0.000"
  | S754_finite sign m e =>
      let n :=
        if 0 <=? e then Z.pos m * 2 ^ e * 1000
        else (2 * Z.pos m * 1000 + 2 ^ (- e)) / (2 * 2 ^ (- e)) in
      if 10 ^ 24 <=? n then None
      else Some ((if sign then "-" else EmptyString) ++ fixed3 n)%string
  end.

(** [`${Number((value / of) * 100).toFixed(3)}%`] *)
Definition percentage (value of_ : Z) : option string :=
  let x := SFmul prec emax (SFdiv prec emax (ofInteger value) (ofInteger of_))
                 (ofInteger 100) in
  match toFixed3 x with
  | Some text => Some (text ++ "%")%string
  | None => None
  end.

End JsNumberText.

(** The text that [Console.log] prints for a line. The layout that the
    console gives to a logged object is not modelled ([None]). *)
Definition render (l : ConsoleLine) : option string :=
  match l with
  | LogText text => Some text
  | LogDiagnostic _ => None
  | LogEntry rs compressedSize name =>
      match JsNumberText.percentage rs compressedSize with
      | Some p => Some (p ++ ": " ++ name)%string
      | None => None
      end
  | LogSummary rangeSum compressedSize =>
      match JsNumberText.percentage rangeSum compressedSize with
      | Some p =>
          Some ("Range sum: " ++ JsNumberText.integerText rangeSum
                ++ " total: " ++ JsNumberText.integerText compressedSize
                ++ ", analized " ++ p)%string
      | None => None
      end
  end.

(** ** Array methods with a callback that runs in [M] *)

Section ArrayMethods.

Context {A B : Type}.

(** [array.filter(callback)] *)
Fixpoint filterM (callback : A -> M bool) (array : list A) : M (list A) :=
  match array with
  | [] => ret []
  | x :: rest =>
      keep <- callback x ;;
      rest' <- filterM callback rest ;;
      ret (if keep : bool then x :: rest' else rest')
  end.

(** [array.forEach(callback)] *)
Fixpoint forEachM (callback : A -> M unit) (array : list A) : M unit :=
  match array with
  | [] => ret tt
  | x :: rest => callback x ;;; forEachM callback rest
  end.

(** [array.map(callback)] *)
Fixpoint mapM (callback : A -> M B) (array : list A) : M (list B) :=
  match array with
  | [] => ret []
  | x :: rest =>
      y <- callback x ;;
      rest' <- mapM callback rest ;;
      ret (y :: rest')
  end.

(** [array.sort(compare)]. ECMAScript (2019) makes the sort stable; which
    pairs are compared, and in which order, is the engine's choice. The
    model is the stable insertion sort: an element goes in front of the
    first element of the sorted rest that it does not have to follow. It
    inserts from the last element on, so that it compares other pairs,
    and in another order, than an engine that inserts from the first
    element on. The sorted array does not depend on this; which call of
    a comparator with effects comes first does (with the comparator of
    [Earlier.process]: which definition of negative size is diagnosed
    before the run ends). *)
Fixpoint insertM (compare : A -> A -> M Z) (x : A) (sorted : list A) : M (list A) :=
  match sorted with
  | [] => ret [x]
  | y :: rest =>
      c <- compare x y ;;
      if c <=? 0 then ret (x :: y :: rest)
      else (rest' <- insertM compare x rest ;; ret (y :: rest'))
  end.

Fixpoint sortM (compare : A -> A -> M Z) (array : list A) : M (list A) :=
  match array with
  | [] => ret []
  | x :: rest => sorted <- sortM compare rest ;; insertM compare x sorted
  end.

End ArrayMethods.

(** ** [process] and [analyse] *)

Section Process.

(** [Esprima.parseScript(text, { range: true })] *)
Variable parseScript : string -> Exception + Program.

(** [consumer.computeColumnSpans()]: a method call on [consumer]. *)
Definition computeColumnSpans (consumer : option SourceMapConsumer) : M unit :=
  match consumer with
  | None => throw TypeError
  | Some _ => ret tt
  end.

(** [rangeSize(compressRange(item))]: the parameter pattern
    [[start, end]] cannot destructure [null]. *)
Definition rangeSizeOf (r : option (JsNumber * JsNumber)) : M Z :=
  match r with
  | None => throw TypeError
  | Some r => ret (rangeSize (toNumbers r))
  end.

Definition initialState : State := mkState ∅ [].

(** [if (!compressedCode) { compressedCode = code; }]: [null] and the
    empty string are falsy. *)
Definition compressedOrCode (compressedCode : option string) (code : string) : string :=
  match compressedCode with
  | None | Some EmptyString => code
  | Some text => text
  end.

Definition process (code : string) (compressedCode : option string)
           (consumer : option SourceMapConsumer) : Result unit :=
  (consoleLog (LogText "Parsing code") ;;;
   computeColumnSpans consumer ;;;
   parsed <- liftResult (parseScript code) ;;
   let compressedCode := compressedOrCode compressedCode code in
   parsedCompressed <- liftResult (parseScript compressedCode) ;;
   let compressedSize := rangeSize (program_range parsedCompressed) in
   let infos := yieldElmJsDefinitionInfos parsed in
   let compressedSplat := JsString.split compressedCode in
   let compressRange := compressRange code compressedSplat consumer in
   infos <- filterM
              (fun info =>
                 range <- compressRange info ;;
                 ret ((0 <=? JsString.indexOf (info_name info) "$"%char)
                      && bool_decide (range <> None)))
              infos ;;
   consoleLog (LogText "Sorting") ;;;
   infos <- sortM
              (fun a b =>
                 compressedRangeA <- compressRange a ;;
                 compressedRangeB <- compressRange b ;;
                 sizeB <- rangeSizeOf compressedRangeB ;;
                 sizeA <- rangeSizeOf compressedRangeA ;;
                 ret (sizeB - sizeA))
              infos ;;
   forEachM
     (fun item =>
        r <- compressRange item ;;
        rs <- rangeSizeOf r ;;
        consoleLog (LogEntry rs compressedSize (info_name item)))
     infos ;;;
   sizes <- mapM (fun item => r <- compressRange item ;; rangeSizeOf r) infos ;;
   let rangeSum := fold_left Z.add sizes 0 in
   consoleLog (LogSummary rangeSum compressedSize))
    initialState.

(** [fs.readFile], and [terser.minify] with the consumer built from its
    source map. The line 'Running terser' and the file [tersed.js] that
    [withTerser] writes are left out. *)
Variable readFile : string -> Exception + string.
Variable minify : string -> Exception + (string * SourceMapConsumer).

Definition withTerser {T} (filePath : string)
           (callback : string -> SourceMapConsumer -> Result T) : Result T :=
  match readFile filePath with
  | inl e => Throw e initialState
  | inr source =>
      match minify source with
      | inl e => Throw e initialState
      | inr (EmptyString, _) => Throw TerserError initialState
      | inr (minified, consumer) => callback minified consumer
      end
  end.

Definition analyse (elmOutputJsFilePath : string) (terser : bool) : Result unit :=
  match readFile elmOutputJsFilePath with
  | inl e => Throw e initialState
  | inr code =>
      if terser then
        withTerser elmOutputJsFilePath
                   (fun compressedCode consumer =>
                      process code (Some compressedCode) (Some consumer))
      else process code None None
  end.

End Process.

(** ** The earlier version of [analyse.ts]

    The file under [src/src] is the version before boundary modes: one
    line/column lookup for both endpoints, an exception for a negative
    range, and no filter. Only what differs is repeated here. *)

Module Earlier.

Section Closures.

Variable code : string.
Variable compressedSplat : list string.
Variable consumer : option SourceMapConsumer.

Definition indexToLineColumn (index : Z) : LineColumn :=
  let beforeSlice := JsString.slice0 code index in
  let splat := JsString.split beforeSlice in
  mkLineColumn (Z.of_nat (List.length splat))
               (JsString.length (List.last splat EmptyString)).

(** The parameter [left] is not used. *)
Definition compressIndex (index : Z) (left : bool) : M JsNumber :=
  match consumer with
  | None => ret (Some index)
  | Some c =>
      cached <- cacheLookup index ;;
      match cached with
      | Some v => ret v
      | None =>
          let lc := indexToLineColumn index in
          let mapped := generatedPositionFor c lc in
          result <- liftResult (generatedOffset compressedSplat mapped) ;;
          (cacheStore index result ;;;
           ret result)
      end
  end.

Definition endpointDiagnostic (c : SourceMapConsumer) (index : Z) (left : bool)
  : MappedEndpoint :=
  let lc := indexToLineColumn (index + (if left then 0 else 1)) in
  let generated := generatedPositionFor c lc in
  mkMappedEndpoint (line lc) (column lc) generated (originalPositionFor c generated).

Definition compressRange (info : DefinitionInfo) : M (JsNumber * JsNumber) :=
  let name := info_name info in
  let range := info_range info in
  start' <- compressIndex (fst range) true ;;
  end' <- compressIndex (snd range) false ;;
  let result := (start', end') in
  if rangeSize (toNumbers result) <? 0 then
    match consumer with
    | None => throw TypeError
    | Some c =>
        consoleLog
          (LogDiagnostic
             (mkDiagnostic name range
                (indexToLineColumn (fst range), indexToLineColumn (snd range))
                (endpointDiagnostic c (fst range) true,
                 endpointDiagnostic c (snd range) false)
                result)) ;;;
        throw InvalidNegativeRange
    end
  else ret result.

End Closures.

Section Process.

Variable parseScript : string -> Exception + Program.

Definition process (code : string) (compressedCode : option string)
           (consumer : option SourceMapConsumer) : Result unit :=
  (consoleLog (LogText "Parsing code") ;;;
   computeColumnSpans consumer ;;;
   parsed <- liftResult (parseScript code) ;;
   let compressedCode := compressedOrCode compressedCode code in
   parsedCompressed <- liftResult (parseScript compressedCode) ;;
   let compressedSize := rangeSize (program_range parsedCompressed) in
   let infos := yieldElmJsDefinitionInfos parsed in
   let compressedSplat := JsString.split compressedCode in
   let compressRange := compressRange code compressedSplat consumer in
   consoleLog (LogText "Sorting") ;;;
   infos <- sortM
              (fun a b =>
                 compressedRangeA <- compressRange a ;;
                 compressedRangeB <- compressRange b ;;
                 ret (rangeSize (toNumbers compressedRangeB)
                      - rangeSize (toNumbers compressedRangeA)))
              infos ;;
   forEachM
     (fun item =>
        r <- compressRange item ;;
        consoleLog (LogEntry (rangeSize (toNumbers r)) compressedSize (info_name item)))
     infos ;;;
   sizes <- mapM (fun item => r <- compressRange item ;; ret (rangeSize (toNumbers r)))
                 infos ;;
   let rangeSum := fold_left Z.add sizes 0 in
   consoleLog (LogSummary rangeSum compressedSize))
    initialState.

End Process.

End Earlier.

(** ** Reading the report back from the console *)

(** The ranked entries, as (name, size), in the order they were printed. *)
Definition entryOf (l : ConsoleLine) : option (string * Z) :=
  match l with
  | LogEntry rs _ name => Some (name, rs)
  | _ => None
  end.

Definition reportEntries (out : list ConsoleLine) : list (string * Z) :=
  omap entryOf out.

(** The summary lines, as (rangeSum, compressedSize). *)
Definition summaryOf (l : ConsoleLine) : option (Z * Z) :=
  match l with
  | LogSummary rangeSum compressedSize => Some (rangeSum, compressedSize)
  | _ => None
  end.

Definition reportSummaries (out : list ConsoleLine) : list (Z * Z) :=
  omap summaryOf out.

Definition diagnosticOf (l : ConsoleLine) : option Diagnostic :=
  match l with
  | LogDiagnostic d => Some d
  | _ => None
  end.

Definition reportDiagnostics (out : list ConsoleLine) : list Diagnostic :=
  omap diagnosticOf out.

(** ** What the index cache says about a definition

    Once both endpoints of a definition are in the cache, every later
    [compressRange] of it reads them from there. *)

Definition cachedNumber (cache : gmap Z JsNumber) (index : Z) : Z :=
  toNumber (default None (cache !! index)).

Definition attributedSize (cache : gmap Z JsNumber) (info : DefinitionInfo) : Z :=
  cachedNumber cache (snd (info_range info)) - cachedNumber cache (fst (info_range info)).

Definition covered (cache : gmap Z JsNumber) (info : DefinitionInfo) : Prop :=
  is_Some (cache !! fst (info_range info)) /\ is_Some (cache !! snd (info_range info)).

(** Both endpoints are cached and the cached size is not negative. *)
Definition settled (cache : gmap Z JsNumber) (info : DefinitionInfo) : Prop :=
  covered cache info /\ 0 <= attributedSize cache info.

(** The test of the filter in [process], on the sizes of a cache. *)
Definition hasDollar (info : DefinitionInfo) : bool :=
  0 <=? JsString.indexOf (info_name info) "$"%char.

Definition retained (cache : gmap Z JsNumber) (info : DefinitionInfo) : bool :=
  hasDollar info && (0 <=? attributedSize cache info).

(** ** The stable insertion sort on a pure comparator *)

Section PureSort.

Context {A : Type}.
Variable compare : A -> A -> Z.

Fixpoint insertBy (x : A) (sorted : list A) : list A :=
  match sorted with
  | [] => [x]
  | y :: rest =>
      if compare x y <=? 0 then x :: y :: rest else y :: insertBy x rest
  end.

Fixpoint sortBy (array : list A) : list A :=
  match array with
  | [] => []
  | x :: rest => insertBy x (sortBy rest)
  end.

End PureSort.

(** The comparator of [process] when the sizes are those of [cache]. *)
Definition bySizeDescending (cache : gmap Z JsNumber) (a b : DefinitionInfo) : Z :=
  attributedSize cache b - attributedSize cache a.

(** ** The extractor in the words of its contract *)

Module Contract.

(** The statement list of an enclosing initializer: an expression
    statement whose expression is a call whose callee is a function
    literal. *)
Definition initializerStatements (e : Statement) : option (list Statement) :=
  match e with
  | ExpressionStatement expression =>
      match expression with
      | CallExpression callee =>
          match callee with
          | FunctionExpression body => Some body
          | _ => None
          end
      | _ => None
      end
  | _ => None
  end.

(** One definition per declarator that binds an identifier directly,
    with the declarator's own range. *)
Fixpoint directlyBound (declarations : list VariableDeclarator) : list DefinitionInfo :=
  match declarations with
  | [] => []
  | d :: rest =>
      match declarator_id d with
      | Identifier name => mkInfo name (declarator_range d) :: directlyBound rest
      | _ => directlyBound rest
      end
  end.

Definition definitionsOf (statement : Statement) : list DefinitionInfo :=
  match statement with
  | FunctionDeclaration id range => [mkInfo id range]
  | VariableDeclaration declarations => directlyBound declarations
  | ExpressionStatement _ | OtherStatement => []
  end.

Fixpoint countIdentifiers (declarations : list VariableDeclarator) : nat :=
  match declarations with
  | [] => O
  | d :: rest =>
      match declarator_id d with
      | Identifier _ => S (countIdentifiers rest)
      | _ => countIdentifiers rest
      end
  end.

Definition countOf (statement : Statement) : nat :=
  match statement with
  | FunctionDeclaration _ _ => 1%nat
  | VariableDeclaration declarations => countIdentifiers declarations
  | _ => O
  end.

Definition extract (script : Program) : list DefinitionInfo :=
  concat (map definitionsOf (concat (omap initializerStatements (program_body script)))).

(** The translation of (offset, boundary) without a cache: line and
    column of the offset (of the character before it for a right
    boundary), the table's generated position, and its offset in the
    minified text. *)
Definition translate (code : string) (compressedSplat : list string)
           (c : SourceMapConsumer) (offset : Z) (right : bool) : Exception + JsNumber :=
  generatedOffset compressedSplat
    (generatedPositionFor c (indexToLineColumn code offset right)).

End Contract.

(** The translated range of a definition, as the cache has it. *)
Definition translatedRange (cache : gmap Z JsNumber) (info : DefinitionInfo) : Range :=
  (cachedNumber cache (fst (info_range info)), cachedNumber cache (snd (info_range info))).

(** Two ranges that do not overlap. *)
Definition apart (r1 r2 : Range) : Prop :=
  snd r1 <= fst r2 \/ snd r2 <= fst r1.

Fixpoint sumSizes (rs : list Range) : Z :=
  match rs with
  | [] => 0
  | r :: rest => rangeSize r + sumSizes rest
  end.

(** Reading order of positions. *)
Definition positionLe (p q : LineColumn) : Prop :=
  line p < line q \/ (line p = line q /\ column p <= column q).

(** The characters of some lines, each with its line break. *)
Fixpoint linesLength (ls : list string) : Z :=
  match ls with
  | [] => 0
  | l :: rest => JsString.length l + 1 + linesLength rest
  end.

(** A position in a text given by its lines: on one of the lines, at
    one of its characters or at its end. *)
Definition inText (lines : list string) (p : LineColumn) : Prop :=
  1 <= line p /\ 0 <= column p /\
  exists l, lines !! Z.to_nat (line p - 1) = Some l /\ column p <= JsString.length l.

(** A table that keeps the reading order: of two positions it maps,
    the earlier one is not sent behind the later one. *)
Definition orderPreserving (c : SourceMapConsumer) : Prop :=
  forall p q p' q',
    positionLe p q ->
    generatedPositionFor c p = Some p' ->
    generatedPositionFor c q = Some q' ->
    positionLe p' q'.

(** ** Sample inputs

    Texts with the syntax tree that the parser gives for them (ranges
    counted by hand), and mapping tables. *)

Module Sample.

Definition joinLines (ls : list string) : string :=
  String.concat (String JsString.newline EmptyString) ls.

(** The table that maps every position to itself. *)
Definition identityConsumer : SourceMapConsumer :=
  mkConsumer (fun p => Some p) (fun p => p).

Definition parseAs (text : string) (tree : Program) : string -> Exception + Program :=
  fun input => if String.eqb input text then inr tree else inl SyntaxError.

Definition finalState {A} (r : Result A) : State :=
  match r with
  | Ok _ s => s
  | Throw _ s => s
  end.

(** *** A bundle of four lines, analysed against itself *)

Definition bundle : string :=
  joinLines ["(function(){"; "function F$a(){}"; "var b$c=1,d=2;"; "})()"].

Definition bundleProgram : Program :=
  mkProgram
    [ExpressionStatement
       (CallExpression
          (FunctionExpression
             [FunctionDeclaration "F$a" (13, 29);
              VariableDeclaration
                [mkDeclarator (Identifier "b$c") (34, 39);
                 mkDeclarator (Identifier "d") (40, 43)]]))]
    (0, 49).

Definition bundleRun : Result unit :=
  process (parseAs bundle bundleProgram) bundle (Some bundle) (Some identityConsumer).

(** *** Two function declarations that touch *)

Definition adjacent : string := "(function(){function a$(){}function b$(){}})()".

Definition adjacentProgram : Program :=
  mkProgram
    [ExpressionStatement
       (CallExpression
          (FunctionExpression
             [FunctionDeclaration "a$" (12, 27);
              FunctionDeclaration "b$" (27, 42)]))]
    (0, 46).

Definition adjacentRun : Result unit :=
  process (parseAs adjacent adjacentProgram) adjacent (Some adjacent)
          (Some identityConsumer).

(** Synthetic tables for [adjacent]: [swappingConsumer] is the table of
    a minified text in which the two declarations have changed places,
    [droppingConsumer] that of one from which the second declaration is
    gone; both leave the line as it is. *)
Definition adjacentSwapped : string := "(function(){function b$(){}function a$(){}})()".

Definition swappingConsumer : SourceMapConsumer :=
  mkConsumer
    (fun p => Some (mkLineColumn (line p)
                      (if (12 <=? column p) && (column p <? 27) then column p + 15
                       else if (27 <=? column p) && (column p <? 42) then column p - 15
                       else column p)))
    (fun p => p).

Definition adjacentDropped : string := "(function(){function a$(){}})()".

Definition droppingConsumer : SourceMapConsumer :=
  mkConsumer
    (fun p => if (27 <=? column p) && (column p <? 42) then None
              else Some (mkLineColumn (line p)
                                        (if column p <? 27 then column p
                                         else column p - 15)))
    (fun p => p).

(** *** The scenario `function greet(){}`

    The declaration has 18 characters. Alone it is a statement at top
    level, with the range [0,18), and there is no enclosing initializer;
    as the only statement of an enclosing initializer it has the range
    [12,30). *)

Definition greetAlone : string := "function greet(){}".

Definition greetAloneProgram : Program :=
  mkProgram [FunctionDeclaration "greet" (0, 18)] (0, 18).

Definition greetAloneRun : Result unit :=
  process (parseAs greetAlone greetAloneProgram) greetAlone (Some greetAlone)
          (Some identityConsumer).

Definition greetText : string := "(function(){function greet(){}})()".

Definition greetProgram : Program :=
  mkProgram
    [ExpressionStatement
       (CallExpression
          (FunctionExpression [FunctionDeclaration "greet" (12, 30)]))]
    (0, 34).

Definition greetRun : Result unit :=
  process (parseAs greetText greetProgram) greetText (Some greetText)
          (Some identityConsumer).

(** *** Two declarations that a table maps onto the same stretch

    Both declarators are sent to the columns 0 and 28 of the only
    minified line. *)

Definition twoVars : string :=
  joinLines ["(function(){"; "var a$=1;"; "var b$=2;"; "})()"].

Definition twoVarsProgram : Program :=
  mkProgram
    [ExpressionStatement
       (CallExpression
          (FunctionExpression
             [VariableDeclaration [mkDeclarator (Identifier "a$") (17, 21)];
              VariableDeclaration [mkDeclarator (Identifier "b$") (27, 31)]]))]
    (0, 37).

Definition twoVarsMinified : string := "!function(){var a$=1,b$=2}();".

Definition twoVarsMinifiedProgram : Program :=
  mkProgram [ExpressionStatement OtherExpression] (0, 29).

Definition overlappingConsumer : SourceMapConsumer :=
  mkConsumer
    (fun p => Some (mkLineColumn 1 (if column p =? 4 then 0 else 28)))
    (fun p => p).

Definition twoVarsParse (input : string) : Exception + Program :=
  if String.eqb input twoVars then inr twoVarsProgram
  else if String.eqb input twoVarsMinified then inr twoVarsMinifiedProgram
  else inl SyntaxError.

Definition overlappingRun : Result unit :=
  process twoVarsParse twoVars (Some twoVarsMinified) (Some overlappingConsumer).

(** *** An alias on one source line whose ends map to two lines *)

Definition alias : string := "(function(){var a$=b$;})()".

Definition aliasInfo : DefinitionInfo := mkInfo "a$" (16, 21).

Definition aliasMinifiedSplat : list string := ["!function(){"; "}();"].

Definition crossingConsumer : SourceMapConsumer :=
  mkConsumer
    (fun p => if column p =? 16 then Some (mkLineColumn 2 0)
              else Some (mkLineColumn 1 5))
    (fun p => p).

(** *** A declaration whose start has no mapping *)

Definition oneVar : string := "(function(){var a$=1;})()".

Definition oneVarProgram : Program :=
  mkProgram
    [ExpressionStatement
       (CallExpression
          (FunctionExpression
             [VariableDeclaration [mkDeclarator (Identifier "a$") (16, 20)]]))]
    (0, 25).

Definition oneVarInfo : DefinitionInfo := mkInfo "a$" (16, 20).

Definition startUnmappedConsumer : SourceMapConsumer :=
  mkConsumer
    (fun p => if column p =? 16 then None else Some p)
    (fun p => p).

Definition startUnmappedRun : Result unit :=
  process (parseAs oneVar oneVarProgram) oneVar (Some oneVar)
          (Some startUnmappedConsumer).

End Sample.

(** ** Views for the further properties *)

(** The state that a call leaves, whether it returns or throws. *)
Definition stateOf {A} (r : Result A) : State :=
  match r with
  | Ok _ s => s
  | Throw _ s => s
  end.

(** Every entry of the cache is the translation of its offset for one of
    the two boundaries. *)
Definition translationsOnly (code : string) (compressedSplat : list string)
           (c : SourceMapConsumer) (cache : gmap Z JsNumber) : Prop :=
  forall index v,
    cache !! index = Some v ->
    Contract.translate code compressedSplat c index false = inr v \/
    Contract.translate code compressedSplat c index true = inr v.

(** The test that sends a definition to the diagnostic: a negative size
    and endpoints on two lines of the unminified text. *)
Definition anomalous (code : string) (cache : gmap Z JsNumber) (info : DefinitionInfo) : bool :=
  (attributedSize cache info <? 0)
  && negb (line (indexToLineColumn code (fst (info_range info)) false)
           =? line (indexToLineColumn code (snd (info_range info)) true)).

(** The diagnostic of a definition, with the translated pair of a cache. *)
Definition diagnosticFor (code : string) (c : SourceMapConsumer)
           (cache : gmap Z JsNumber) (info : DefinitionInfo) : Diagnostic :=
  let range := info_range info in
  mkDiagnostic (info_name info) range
    (indexToLineColumn code (fst range) false, indexToLineColumn code (snd range) true)
    (endpointDiagnostic code c (fst range) false, endpointDiagnostic code c (snd range) true)
    (default None (cache !! fst range), default None (cache !! snd range)).

(** The table sends no position of the text more than one line past the
    minified lines, so that the loop of [compressIndex] finds every line
    it reads. *)
Definition linesInRange (code : string) (c : SourceMapConsumer)
           (compressedSplat : list string) : Prop :=
  forall index right q,
    generatedPositionFor c (indexToLineColumn code index right) = Some q ->
    (Z.to_nat (line q - 1) <= List.length compressedSplat)%nat.

(** The entries of the cache under the offsets where definitions of
    [infos] start or end are the translations for the left, respectively
    the right boundary. *)
Definition exactFor (code : string) (compressedSplat : list string)
           (c : SourceMapConsumer) (infos : list DefinitionInfo)
           (cache : gmap Z JsNumber) : Prop :=
  forall index v,
    cache !! index = Some v ->
    (forall info, In info infos -> fst (info_range info) = index ->
                  Contract.translate code compressedSplat c index false = inr v) /\
    (forall info, In info infos -> snd (info_range info) = index ->
                  Contract.translate code compressedSplat c index true = inr v).

(** *** The earlier version *)

(** The translation of an offset in the earlier version, without cache. *)
Definition earlierTranslate (code : string) (compressedSplat : list string)
           (c : SourceMapConsumer) (index : Z) : Exception + JsNumber :=
  generatedOffset compressedSplat
    (generatedPositionFor c (Earlier.indexToLineColumn code index)).

(** Every entry of the cache is the translation of its offset. *)
Definition soundCache (code : string) (compressedSplat : list string)
           (c : SourceMapConsumer) (cache : gmap Z JsNumber) : Prop :=
  forall index v,
    cache !! index = Some v -> earlierTranslate code compressedSplat c index = inr v.

Definition freshOffset (code : string) (compressedSplat : list string)
           (c : SourceMapConsumer) (index : Z) : Z :=
  match earlierTranslate code compressedSplat c index with
  | inr v => toNumber v
  | inl _ => 0
  end.

(** The size of a definition from translations without cache. *)
Definition freshSize (code : string) (compressedSplat : list string)
           (c : SourceMapConsumer) (info : DefinitionInfo) : Z :=
  freshOffset code compressedSplat c (snd (info_range info))
  - freshOffset code compressedSplat c (fst (info_range info)).

Definition byFreshSizeDescending (code : string) (compressedSplat : list string)
           (c : SourceMapConsumer) (a b : DefinitionInfo) : Z :=
  freshSize code compressedSplat c b - freshSize code compressedSplat c a.

(** A list of queries to the earlier [compressIndex], one after the
    other. *)
Definition earlierQueries (code : string) (compressedSplat : list string)
           (c : SourceMapConsumer) (queries : list (Z * bool)) : M (list JsNumber) :=
  mapM (fun query => Earlier.compressIndex code compressedSplat (Some c)
                                           (fst query) (snd query))
       queries.


(** What a run of the earlier version comes to when both texts parse and
    the table stays inside the minified text. *)
Definition earlierOutcome (code : string) (compressedSplat : list string)
           (c : SourceMapConsumer) (infos : list DefinitionInfo) (r : Result unit) : Prop :=
  match r with
  | Ok _ final =>
      Forall (fun item => 0 <= freshSize code compressedSplat c item) infos
  | Throw e s =>
      e = InvalidNegativeRange /\
      Exists (fun item => freshSize code compressedSplat c item < 0) infos /\
      reportSummaries (console s) = [] /\
      exists d, reportDiagnostics (console s) = [d]
  end.

(** A table that sends the column 16 behind every other column of the
    only minified line. *)
Definition reversingConsumer : SourceMapConsumer :=
  mkConsumer
    (fun p => Some (mkLineColumn 1 (if column p =? 16 then 20 else 0)))
    (fun p => p).

(** * Properties *)

(** ** The monad *)

Lemma bind_Ok {A B} (m : M A) (k : A -> M B) s b s' :
  bind m k s = Ok b s' ->
  exists a s1, m s = Ok a s1 /\ k a s1 = Ok b s'.
Proof.
  unfold bind. destruct (m s) as [a s1|e s1]; [eauto | discriminate].
Qed.

Lemma bind_step {A B} (m : M A) (k : A -> M B) s a s1 :
  m s = Ok a s1 -> bind m k s = k a s1.
Proof. unfold bind. intros ->. reflexivity. Qed.

Lemma state_eta (s : State) : mkState (indexCache s) (console s) = s.
Proof. destruct s; reflexivity. Qed.

(** ** Lines and offsets: the identity table *)

Section LinesAndOffsets.

Lemma split_nonempty s : JsString.split s <> [].
Proof.
  destruct s as [|c s]; simpl; [discriminate|].
  destruct (Ascii.eqb c JsString.newline); [discriminate|].
  destruct (JsString.split s); discriminate.
Qed.

Lemma split_cons_newline c s :
  Ascii.eqb c JsString.newline = true ->
  JsString.split (String c s) = EmptyString :: JsString.split s.
Proof. intros H. simpl. by rewrite H. Qed.

Lemma split_cons_other c s :
  Ascii.eqb c JsString.newline = false ->
  exists first others,
    JsString.split s = first :: others /\
    JsString.split (String c s) = String c first :: others.
Proof.
  intros H. simpl. rewrite H.
  destruct (JsString.split s) as [|first others] eqn:E.
  - by apply split_nonempty in E.
  - eauto.
Qed.

(** The lines before the last one, with their line breaks, and the last
    line make up the text. *)
Lemma split_lengths s :
  linesLength (removelast (JsString.split s))
  + JsString.length (List.last (JsString.split s) EmptyString)
  = JsString.length s.
Proof.
  induction s as [|c s IH]; [reflexivity|].
  destruct (Ascii.eqb c JsString.newline) eqn:E.
  - rewrite (split_cons_newline _ _ E).
    destruct (JsString.split s) as [|first others] eqn:Es;
      [by apply split_nonempty in Es|].
    change (removelast (EmptyString :: first :: others))
      with (EmptyString :: removelast (first :: others)).
    change (List.last (EmptyString :: first :: others) EmptyString)
      with (List.last (first :: others) EmptyString).
    cbn [linesLength]. unfold JsString.length in *. cbn [String.length]. lia.
  - destruct (split_cons_other c s E) as (first & others & Es & ->).
    rewrite Es in IH. destruct others as [|second others].
    + cbn in *. unfold JsString.length in *. cbn [String.length]. lia.
    + change (removelast (String c first :: second :: others))
        with (String c first :: removelast (second :: others)).
      change (removelast (first :: second :: others))
        with (first :: removelast (second :: others)) in IH.
      change (List.last (String c first :: second :: others) EmptyString)
        with (List.last (second :: others) EmptyString).
      change (List.last (first :: second :: others) EmptyString)
        with (List.last (second :: others) EmptyString) in IH.
      cbn [linesLength] in *. unfold JsString.length in *.
      cbn [String.length]. lia.
Qed.

(** The lines of a prefix, but for the last one, are lines of the text. *)
Lemma split_prefix a b :
  firstn (List.length (JsString.split a) - 1) (JsString.split (a ++ b)%string)
  = removelast (JsString.split a).
Proof.
  induction a as [|c a IH]; [reflexivity|].
  change (String c a ++ b)%string with (String c (a ++ b)%string).
  destruct (Ascii.eqb c JsString.newline) eqn:E.
  - rewrite !(split_cons_newline _ _ E).
    destruct (JsString.split a) as [|first others] eqn:Ea;
      [by apply split_nonempty in Ea|].
    change (removelast (EmptyString :: first :: others))
      with (EmptyString :: removelast (first :: others)).
    cbn [List.length Nat.sub] in *. rewrite Nat.sub_0_r in *.
    cbn [firstn]. by rewrite IH.
  - destruct (split_cons_other c a E) as (first & others & Ea & ->).
    destruct (split_cons_other c (a ++ b)%string E) as (first' & others' & Eab & ->).
    rewrite Ea, Eab in IH.
    destruct others as [|second others]; [reflexivity|].
    change (removelast (String c first :: second :: others))
      with (String c first :: removelast (second :: others)).
    change (removelast (first :: second :: others))
      with (first :: removelast (second :: others)) in IH.
    cbn [List.length Nat.sub firstn] in *.
    injection IH as -> IH. by rewrite IH.
Qed.

Lemma substring_prefix n s :
  (n <= String.length s)%nat ->
  exists rest,
    s = (String.substring 0 n s ++ rest)%string /\
    String.length (String.substring 0 n s) = n.
Proof.
  revert s. induction n as [|n IH]; intros s Hn.
  - exists s. destruct s; auto.
  - destruct s as [|c s]; [simpl in Hn; lia|].
    destruct (IH s) as (rest & Hs & Hlen); [simpl in Hn; lia|].
    exists rest. split.
    + change (String c s = String c (String.substring 0 n s ++ rest)%string).
      by f_equal.
    + change (S (String.length (String.substring 0 n s)) = S n). by f_equal.
Qed.

Variable compressedSplat : list string.

(** The loop adds the lengths of the lines it passes. *)
Lemma addLineLengths_firstn count k result :
  (k + count <= List.length compressedSplat)%nat ->
  addLineLengths compressedSplat count (Z.of_nat k + 1) result
  = inr (result + linesLength (firstn count (skipn k compressedSplat))).
Proof.
  revert k result. induction count as [|count IH]; intros k result Hk.
  - simpl. f_equal. lia.
  - cbn [addLineLengths].
    replace (Z.to_nat (Z.of_nat k + 1 - 1)) with k by lia.
    destruct (compressedSplat !! k) as [l|] eqn:El.
    + replace (Z.of_nat k + 1 + 1) with (Z.of_nat (S k) + 1) by lia.
      rewrite IH by lia.
      rewrite (drop_S _ _ _ El). cbn [firstn linesLength]. f_equal. lia.
    + apply lookup_ge_None in El. lia.
Qed.

End LinesAndOffsets.

(** With the identity table and the text as its own minified text, an
    offset inside the text translates to itself as a start, and to the
    offset before it as an end. *)
Lemma identity_translate_left code index :
  0 <= index <= JsString.length code ->
  Contract.translate code (JsString.split code) Sample.identityConsumer index false
  = inr (Some index).
Proof.
  intros Hindex. unfold Contract.translate, Sample.identityConsumer.
  cbn [generatedPositionFor]. unfold indexToLineColumn, generatedOffset.
  cbn [line column]. unfold JsString.slice0.
  destruct (Z.ltb_spec index 0) as [|_]; [lia|].
  rewrite Z.min_l by lia.
  destruct (substring_prefix (Z.to_nat index) code) as (rest & Hcode & Hlen);
    [unfold JsString.length in Hindex; lia|].
  set (before := String.substring 0 (Z.to_nat index) code) in *.
  pose proof (split_prefix before rest) as Hprefix. rewrite <- Hcode in Hprefix.
  pose proof (split_lengths before) as Hlengths.
  assert (Hpos : (1 <= List.length (JsString.split before))%nat).
  { pose proof (split_nonempty before). destruct (JsString.split before);
      [congruence | simpl; lia]. }
  replace (Z.to_nat (Z.of_nat (List.length (JsString.split before)) - 1))
    with (List.length (JsString.split before) - 1)%nat by lia.
  change 1 with (Z.of_nat 0 + 1).
  rewrite addLineLengths_firstn.
  - rewrite drop_0, Hprefix. do 2 f_equal.
    unfold JsString.length in *. lia.
  - assert (Hlen' : List.length (firstn (List.length (JsString.split before) - 1)
                                        (JsString.split code))
                    = (List.length (JsString.split before) - 1)%nat).
    { rewrite Hprefix. rewrite List.removelast_firstn_len, List.length_firstn. lia. }
    rewrite List.length_firstn in Hlen'. lia.
Qed.

Lemma identity_translate_right code index :
  1 <= index <= JsString.length code ->
  Contract.translate code (JsString.split code) Sample.identityConsumer index true
  = inr (Some (index - 1)).
Proof.
  intros Hindex.
  rewrite <- (identity_translate_left code (index - 1)) by lia.
  reflexivity.
Qed.

(** ** The line and column of consecutive offsets *)

Lemma split_snoc_newline a :
  JsString.split (a ++ String JsString.newline EmptyString)%string
  = JsString.split a ++ [EmptyString].
Proof.
  induction a as [|c a IH]; [reflexivity|].
  change (String c a ++ String JsString.newline EmptyString)%string
    with (String c (a ++ String JsString.newline EmptyString)%string).
  destruct (Ascii.eqb c JsString.newline) eqn:E.
  - rewrite !(split_cons_newline _ _ E), IH. reflexivity.
  - destruct (split_cons_other c a E) as (first & others & Ea & ->).
    destruct (split_cons_other c (a ++ String JsString.newline EmptyString)%string E)
      as (first' & others' & Eab & ->).
    rewrite IH, Ea in Eab. injection Eab as <- <-. reflexivity.
Qed.

Lemma split_snoc_other a c :
  Ascii.eqb c JsString.newline = false ->
  JsString.split (a ++ String c EmptyString)%string
  = removelast (JsString.split a)
    ++ [(List.last (JsString.split a) EmptyString ++ String c EmptyString)%string].
Proof.
  intros Hc. induction a as [|d a IH].
  - simpl. by rewrite Hc.
  - change (String d a ++ String c EmptyString)%string
      with (String d (a ++ String c EmptyString)%string).
    destruct (Ascii.eqb d JsString.newline) eqn:E.
    + rewrite !(split_cons_newline _ _ E), IH.
      destruct (JsString.split a) as [|first others] eqn:Ea;
        [by apply split_nonempty in Ea|]. reflexivity.
    + destruct (split_cons_other d a E) as (first & others & Ea & ->).
      destruct (split_cons_other d (a ++ String c EmptyString)%string E)
        as (first' & others' & Eab & ->).
      rewrite IH, Ea in Eab.
      destruct others as [|second others].
      * injection Eab as <- <-. reflexivity.
      * change (removelast (first :: second :: others))
          with (first :: removelast (second :: others)) in Eab.
        injection Eab as <- <-. reflexivity.
Qed.

Lemma substring_snoc n s :
  (S n <= String.length s)%nat ->
  exists c, String.substring 0 (S n) s
            = (String.substring 0 n s ++ String c EmptyString)%string.
Proof.
  revert s. induction n as [|n IH]; intros s Hn.
  - destruct s as [|c s]; [simpl in Hn; lia|]. exists c.
    simpl. destruct s; reflexivity.
  - destruct s as [|d s]; [simpl in Hn; lia|].
    destruct (IH s) as (c & Hc); [simpl in Hn; lia|].
    exists c. change (String.substring 0 (S (S n)) (String d s))
      with (String d (String.substring 0 (S n) s)).
    rewrite Hc. reflexivity.
Qed.

Lemma string_length_app a b :
  String.length (a ++ b)%string = (String.length a + String.length b)%nat.
Proof. induction a; simpl; [reflexivity | by rewrite IHa]. Qed.

(** The position of an offset is not before the position of the offset
    that precedes it: [indexToLineColumn] goes through the text in
    reading order. *)
Lemma indexToLineColumn_right_before_left code index :
  1 <= index <= JsString.length code ->
  positionLe (indexToLineColumn code index true) (indexToLineColumn code index false).
Proof.
  intros Hindex. unfold indexToLineColumn, JsString.slice0.
  destruct (Z.ltb_spec (index - 1) 0) as [|_]; [lia|].
  destruct (Z.ltb_spec index 0) as [|_]; [lia|].
  rewrite !Z.min_l by lia.
  replace (Z.to_nat index) with (S (Z.to_nat (index - 1))) by lia.
  destruct (substring_snoc (Z.to_nat (index - 1)) code) as (c & ->);
    [unfold JsString.length in Hindex; lia|].
  set (before := String.substring 0 (Z.to_nat (index - 1)) code).
  unfold positionLe. cbn [line column].
  destruct (Ascii.eqb c JsString.newline) eqn:E.
  - apply Ascii.eqb_eq in E as ->. rewrite split_snoc_newline.
    left. rewrite List.length_app. simpl. lia.
  - rewrite (split_snoc_other _ _ E). right.
    pose proof (split_nonempty before) as Hne.
    assert (Hlen : List.length (JsString.split before)
                   = (List.length (removelast (JsString.split before)) + 1)%nat).
    { rewrite (List.app_removelast_last EmptyString Hne) at 1.
      by rewrite List.length_app. }
    rewrite List.length_app, List.last_last. split.
    + rewrite Hlen. reflexivity.
    + unfold JsString.length. rewrite string_length_app. simpl. lia.
Qed.

(** ** The translator and its cache *)

Section Translator.

Variable code : string.
Variable compressedSplat : list string.
Variable c : SourceMapConsumer.

Local Abbreviation cIndex := (compressIndex code compressedSplat (Some c)).
Local Abbreviation cRange := (compressRange code compressedSplat (Some c)).

(** A cached offset is returned as it is, whatever the boundary. *)
Lemma compressIndex_hit index right s v :
  indexCache s !! index = Some v ->
  cIndex index right s = Ok v s.
Proof.
  intros H. unfold compressIndex, bind, cacheLookup. rewrite H. reflexivity.
Qed.

(** On a miss the translation is computed as [Contract.translate] does,
    and stored under the offset. *)
Lemma compressIndex_miss index right s :
  indexCache s !! index = None ->
  cIndex index right s =
    match Contract.translate code compressedSplat c index right with
    | inr v => Ok v (mkState (<[index := v]> (indexCache s)) (console s))
    | inl e => Throw e s
    end.
Proof.
  intros H. unfold compressIndex, bind, cacheLookup. rewrite H.
  unfold Contract.translate.
  destruct (generatedOffset _ _) as [e|v]; reflexivity.
Qed.

(** A successful query leaves its answer in the cache, only adds to the
    cache and prints nothing. *)
Lemma compressIndex_Ok index right s v s' :
  cIndex index right s = Ok v s' ->
  indexCache s' !! index = Some v /\
  indexCache s ⊆ indexCache s' /\
  console s' = console s.
Proof.
  destruct (indexCache s !! index) as [w|] eqn:E.
  - rewrite (compressIndex_hit _ _ _ _ E). intros [= <- <-]. auto.
  - rewrite (compressIndex_miss _ _ _ E).
    destruct (Contract.translate _ _ _ _ _) as [e|w]; [discriminate|].
    intros [= <- <-]. simpl. split; [apply lookup_insert_eq|].
    split; [|reflexivity]. by apply insert_subseteq.
Qed.

Lemma covered_mono cache cache' info :
  covered cache info -> cache ⊆ cache' -> covered cache' info.
Proof.
  intros [[a Ha] [b Hb]] Hsub. split.
  - exists a. eapply lookup_weaken; eauto.
  - exists b. eapply lookup_weaken; eauto.
Qed.

Lemma attributedSize_mono cache cache' info :
  covered cache info -> cache ⊆ cache' ->
  attributedSize cache' info = attributedSize cache info.
Proof.
  intros [[a Ha] [b Hb]] Hsub. unfold attributedSize, cachedNumber.
  assert (Ha' : cache' !! fst (info_range info) = Some a) by (eapply lookup_weaken; eauto).
  assert (Hb' : cache' !! snd (info_range info) = Some b) by (eapply lookup_weaken; eauto).
  rewrite Ha, Hb, Ha', Hb'. reflexivity.
Qed.

(** [compressRange] of a definition whose endpoints are cached with a
    size that is not negative: the cached pair, and no effect. *)
Lemma compressRange_covered info s :
  covered (indexCache s) info ->
  0 <= attributedSize (indexCache s) info ->
  exists r, cRange info s = Ok (Some r) s /\
            rangeSize (toNumbers r) = attributedSize (indexCache s) info.
Proof.
  intros [[a Ha] [b Hb]] Hsize.
  unfold attributedSize, cachedNumber in Hsize. rewrite Ha, Hb in Hsize. simpl in Hsize.
  exists (a, b). split.
  - unfold compressRange.
    rewrite (bind_step _ _ _ _ _ (compressIndex_hit _ false _ _ Ha)).
    rewrite (bind_step _ _ _ _ _ (compressIndex_hit _ true _ _ Hb)).
    unfold rangeSize, toNumbers. simpl.
    destruct (Z.ltb_spec (toNumber b - toNumber a) 0); [lia|reflexivity].
  - unfold attributedSize, cachedNumber, rangeSize, toNumbers. rewrite Ha, Hb. reflexivity.
Qed.

(** What a successful [compressRange] leaves behind: both endpoints in
    the cache, and a pair exactly when the cached size is not negative. *)
Lemma compressRange_Ok info s r s' :
  cRange info s = Ok r s' ->
  indexCache s ⊆ indexCache s' /\
  covered (indexCache s') info /\
  (r <> None <-> 0 <= attributedSize (indexCache s') info) /\
  (forall p, r = Some p -> rangeSize (toNumbers p) = attributedSize (indexCache s') info) /\
  (exists ds, console s' = console s ++ map LogDiagnostic ds).
Proof.
  unfold compressRange. intros H.
  apply bind_Ok in H as (a & s1 & Ha & H).
  apply bind_Ok in H as (b & s2 & Hb & H).
  apply compressIndex_Ok in Ha as (Ha & Hsub1 & Hc1).
  apply compressIndex_Ok in Hb as (Hb & Hsub2 & Hc2).
  assert (Ha2 : indexCache s2 !! fst (info_range info) = Some a)
    by (eapply lookup_weaken; eauto).
  assert (Hfinal : indexCache s' = indexCache s2 /\
                   r = (if rangeSize (toNumbers (a, b)) <? 0 then None else Some (a, b)) /\
                   exists ds, console s' = console s2 ++ map LogDiagnostic ds).
  { destruct (rangeSize (toNumbers (a, b)) <? 0).
    - destruct (_ =? _).
      + injection H as <- <-. repeat split; auto. exists []. by rewrite app_nil_r.
      + apply bind_Ok in H as ([] & s3 & Hlog & H). injection H as <- <-.
        unfold consoleLog in Hlog. injection Hlog as <-. repeat split; auto.
        eexists [_]. reflexivity.
    - injection H as <- <-. repeat split; auto. exists []. by rewrite app_nil_r. }
  destruct Hfinal as (Hcache & -> & Hds). rewrite Hcache.
  assert (Hsz : attributedSize (indexCache s2) info = rangeSize (toNumbers (a, b))).
  { unfold attributedSize, cachedNumber. rewrite Ha2, Hb. reflexivity. }
  split; [etrans; eauto|]. split; [split; eauto|].
  rewrite Hsz. split; [|split].
  - destruct (Z.ltb_spec (rangeSize (toNumbers (a, b))) 0); split; intros; try lia; congruence.
  - destruct (Z.ltb_spec (rangeSize (toNumbers (a, b))) 0); intros p [= <-]; reflexivity.
  - rewrite <- Hc1, <- Hc2. exact Hds.
Qed.

End Translator.

(** ** The stages of [process] *)

Section Stages.

Variable code : string.
Variable compressedSplat : list string.
Variable c : SourceMapConsumer.
Variable compressedSize : Z.

Local Abbreviation cRange := (compressRange code compressedSplat (Some c)).

Lemma settled_mono cache cache' info :
  settled cache info -> cache ⊆ cache' -> settled cache' info.
Proof.
  intros [Hc Hs] Hsub. split.
  - eapply covered_mono; eauto.
  - by rewrite (attributedSize_mono _ _ _ Hc Hsub).
Qed.

(** The filter keeps the definitions with a '$' whose size, as the final
    cache has it, is not negative; it leaves every endpoint cached and
    prints diagnostics only. *)
Lemma filterM_retained infos s kept s' :
  filterM (fun info =>
             range <- cRange info ;;
             ret ((0 <=? JsString.indexOf (info_name info) "$"%char)
                  && bool_decide (range <> None))) infos s = Ok kept s' ->
  indexCache s ⊆ indexCache s' /\
  Forall (covered (indexCache s')) infos /\
  kept = List.filter (retained (indexCache s')) infos /\
  exists ds, console s' = console s ++ map LogDiagnostic ds.
Proof.
  revert s kept s'. induction infos as [|info infos IH]; intros s kept s' H.
  - injection H as <- <-. repeat split; auto. exists []. by rewrite app_nil_r.
  - simpl in H.
    apply bind_Ok in H as (keep & s1 & Hkeep & H).
    apply bind_Ok in Hkeep as (range & s0 & Hrange & Hkeep).
    injection Hkeep as <- <-.
    apply bind_Ok in H as (rest & s2 & Hrest & H).
    injection H as <- <-.
    apply compressRange_Ok in Hrange as (Hsub0 & Hcov & Hsome & _ & ds0 & Hds0).
    apply IH in Hrest as (Hsub & Hall & -> & ds & Hds).
    split; [etrans; eauto|].
    split; [constructor; [eapply covered_mono; eauto | assumption]|].
    split.
    + cbn [List.filter].
      assert (Hb : (0 <=? JsString.indexOf (info_name info) "$"%char)
                   && bool_decide (range <> None) = retained (indexCache s2) info).
      { unfold retained, hasDollar. f_equal.
        rewrite (attributedSize_mono _ _ _ Hcov Hsub).
        destruct (Z.leb_spec 0 (attributedSize (indexCache s0) info)) as [Hle|Hlt].
        - apply bool_decide_eq_true. by apply Hsome.
        - apply bool_decide_eq_false. intros Hne. apply Hsome in Hne. lia. }
      rewrite Hb. reflexivity.
    + exists (ds0 ++ ds). rewrite Hds, Hds0, map_app, app_assoc. reflexivity.
Qed.

Local Abbreviation compareSizes :=
  (fun a b : DefinitionInfo =>
     compressedRangeA <- cRange a ;;
     compressedRangeB <- cRange b ;;
     sizeB <- rangeSizeOf compressedRangeB ;;
     sizeA <- rangeSizeOf compressedRangeA ;;
     ret (sizeB - sizeA)).

(** On settled definitions the comparator is pure. *)
Lemma compareSizes_settled a b s :
  settled (indexCache s) a -> settled (indexCache s) b ->
  compareSizes a b s = Ok (bySizeDescending (indexCache s) a b) s.
Proof.
  intros [Hca Hsa] [Hcb Hsb].
  destruct (compressRange_covered code compressedSplat c a s Hca Hsa) as (ra & Hra & Hza).
  destruct (compressRange_covered code compressedSplat c b s Hcb Hsb) as (rb & Hrb & Hzb).
  rewrite (bind_step _ _ _ _ _ Hra), (bind_step _ _ _ _ _ Hrb).
  unfold bind, rangeSizeOf, ret, bySizeDescending. by rewrite Hza, Hzb.
Qed.

Lemma insertBy_Forall {A} (P : A -> Prop) compare x (l : list A) :
  P x -> Forall P l -> Forall P (insertBy compare x l).
Proof.
  intros Hx. induction 1 as [|y l Hy Hl IH]; simpl.
  - by constructor.
  - destruct (_ <=? _); repeat constructor; auto.
Qed.

Lemma sortBy_Forall {A} (P : A -> Prop) compare (l : list A) :
  Forall P l -> Forall P (sortBy compare l).
Proof.
  induction 1; simpl; [constructor | by apply insertBy_Forall].
Qed.

Lemma insertM_settled x sorted s :
  settled (indexCache s) x -> Forall (settled (indexCache s)) sorted ->
  insertM compareSizes x sorted s =
    Ok (insertBy (bySizeDescending (indexCache s)) x sorted) s.
Proof.
  intros Hx. induction 1 as [|y l Hy Hl IH]; [reflexivity|].
  cbn [insertM insertBy].
  rewrite (bind_step _ _ _ _ _ (compareSizes_settled x y s Hx Hy)).
  destruct (_ <=? _); [reflexivity|].
  by rewrite (bind_step _ _ _ _ _ IH).
Qed.

(** The sort of [process] is the pure stable sort by cached size, and
    touches neither cache nor console. *)
Lemma sortM_settled infos s :
  Forall (settled (indexCache s)) infos ->
  sortM compareSizes infos s = Ok (sortBy (bySizeDescending (indexCache s)) infos) s.
Proof.
  induction 1 as [|x l Hx Hl IH]; [reflexivity|].
  cbn [sortM sortBy]. rewrite (bind_step _ _ _ _ _ IH).
  apply insertM_settled; [assumption|]. by apply sortBy_Forall.
Qed.

Lemma forEachM_settled infos s :
  Forall (settled (indexCache s)) infos ->
  forEachM (fun item =>
              r <- cRange item ;;
              rs <- rangeSizeOf r ;;
              consoleLog (LogEntry rs compressedSize (info_name item))) infos s =
    Ok tt (mkState (indexCache s)
                   (console s ++
                    map (fun item => LogEntry (attributedSize (indexCache s) item)
                                              compressedSize (info_name item)) infos)).
Proof.
  revert s. induction infos as [|x l IH]; intros s H.
  - simpl. by rewrite app_nil_r, state_eta.
  - inversion H as [|? ? [Hc Hs] Hl]; subst.
    destruct (compressRange_covered code compressedSplat c x s Hc Hs) as (r & Hr & Hz).
    cbn [forEachM]. unfold bind at 1. unfold bind at 1. rewrite Hr.
    unfold bind at 1. cbn [rangeSizeOf ret consoleLog]. rewrite Hz.
    rewrite IH by exact Hl. cbn [indexCache console map].
    by rewrite <- app_assoc.
Qed.

Lemma mapM_settled infos s :
  Forall (settled (indexCache s)) infos ->
  mapM (fun item => r <- cRange item ;; rangeSizeOf r) infos s =
    Ok (map (attributedSize (indexCache s)) infos) s.
Proof.
  induction 1 as [|x l [Hc Hs] Hl IH]; [reflexivity|].
  destruct (compressRange_covered code compressedSplat c x s Hc Hs) as (r & Hr & Hz).
  cbn [mapM]. unfold bind at 1. unfold bind at 1. rewrite Hr.
  cbn [rangeSizeOf ret]. rewrite Hz. unfold bind at 1. by rewrite IH.
Qed.

End Stages.

(** ** A run of [process] that ends normally *)

Section Runs.

Variable parseScript : string -> Exception + Program.

Lemma liftResult_Ok {A} (r : Exception + A) s a s' :
  liftResult r s = Ok a s' -> r = inr a /\ s' = s.
Proof. destruct r; simpl; [discriminate|]. by intros [= <- <-]. Qed.

(** The shape of the console after a normal run: the diagnostics of the
    filter, then the retained definitions in the order of the stable sort
    by cached size, then the summary. *)
Lemma process_Ok code compressedCode consumer final :
  process parseScript code compressedCode consumer = Ok tt final ->
  exists c parsed parsedCompressed ds,
    consumer = Some c /\
    parseScript code = inr parsed /\
    parseScript (compressedOrCode compressedCode code) = inr parsedCompressed /\
    let cache := indexCache final in
    let total := rangeSize (program_range parsedCompressed) in
    let sorted := sortBy (bySizeDescending cache)
                         (List.filter (retained cache) (yieldElmJsDefinitionInfos parsed)) in
    Forall (covered cache) (yieldElmJsDefinitionInfos parsed) /\
    console final =
      LogText "Parsing code" :: map LogDiagnostic ds ++
      LogText "Sorting" ::
      map (fun item => LogEntry (attributedSize cache item) total (info_name item)) sorted ++
      [LogSummary (fold_left Z.add (map (attributedSize cache) sorted) 0) total].
Proof.
  unfold process. intros H.
  apply bind_Ok in H as ([] & s1 & Hlog & H).
  injection Hlog as <-.
  apply bind_Ok in H as ([] & s2 & Hspans & H).
  destruct consumer as [c|]; [|discriminate]. injection Hspans as <-.
  apply bind_Ok in H as (parsed & s3 & Hparsed & H).
  apply liftResult_Ok in Hparsed as [Hparsed ->].
  apply bind_Ok in H as (parsedCompressed & s4 & Hcompressed & H).
  apply liftResult_Ok in Hcompressed as [Hcompressed ->].
  apply bind_Ok in H as (kept & s5 & Hfilter & H).
  apply filterM_retained in Hfilter as (_ & Hcov & -> & ds & Hds).
  apply bind_Ok in H as ([] & s6 & Hlog & H). injection Hlog as <-.
  set (cache := indexCache s5) in *.
  assert (Hsettled : Forall (settled cache)
                       (List.filter (retained cache) (yieldElmJsDefinitionInfos parsed))).
  { apply List.Forall_forall. intros info Hin.
    apply List.filter_In in Hin as [Hin Hret].
    rewrite List.Forall_forall in Hcov. split; [by apply Hcov|].
    unfold retained in Hret. apply andb_true_iff in Hret as [_ Hret]. lia. }
  apply bind_Ok in H as (sorted & s7 & Hsort & H).
  rewrite sortM_settled in Hsort by exact Hsettled. injection Hsort as <- <-.
  cbn [indexCache] in H. fold cache in H.
  pose proof (sortBy_Forall _ (bySizeDescending cache) _ Hsettled) as Hsorted.
  apply bind_Ok in H as ([] & s8 & Heach & H).
  rewrite forEachM_settled in Heach by exact Hsorted. injection Heach as <-.
  apply bind_Ok in H as (sizes & s9 & Hmap & H).
  rewrite mapM_settled in Hmap by exact Hsorted. injection Hmap as <- <-.
  injection H as <-.
  exists c, parsed, parsedCompressed, ds.
  repeat split; try assumption.
  cbn [console indexCache]. fold cache. rewrite Hds. cbn [console app].
  rewrite <- !app_assoc. reflexivity.
Qed.

End Runs.

(** ** The stable sort *)

Section SizeOrder.

Context {A : Type}.
Variable key : A -> Z.

Local Abbreviation descending := (fun a b : A => key b - key a).
Local Abbreviation notBelow := (fun a b : A => key a >= key b).

Lemma insertBy_HdRel x y l :
  key y >= key x -> HdRel notBelow y l -> HdRel notBelow y (insertBy descending x l).
Proof.
  intros Hyx Hl. destruct l as [|z l]; simpl.
  - by constructor.
  - destruct (_ <=? _); constructor; [assumption|]. by inversion Hl.
Qed.

Lemma insertBy_Sorted x l :
  Sorted notBelow l -> Sorted notBelow (insertBy descending x l).
Proof.
  induction 1 as [|y l Hl IH Hhd]; simpl.
  - repeat constructor.
  - destruct (Z.leb_spec (key y - key x) 0) as [Hle|Hgt].
    + constructor; [by constructor|]. constructor. lia.
    + constructor; [assumption|]. apply insertBy_HdRel; [lia|assumption].
Qed.

Lemma sortBy_Sorted l : Sorted notBelow (sortBy descending l).
Proof.
  induction l; simpl; [constructor | by apply insertBy_Sorted].
Qed.

Lemma insertBy_Permutation x l : Permutation (insertBy descending x l) (x :: l).
Proof.
  induction l as [|y l IH]; simpl; [reflexivity|].
  destruct (_ <=? _); [reflexivity|].
  rewrite IH. apply perm_swap.
Qed.

Lemma sortBy_Permutation l : Permutation (sortBy descending l) l.
Proof.
  induction l as [|x l IH]; simpl; [reflexivity|].
  rewrite insertBy_Permutation. by constructor.
Qed.

(** Inserting moves [x] only past elements of another size. *)
Lemma insertBy_stable k x l :
  List.filter (fun a => key a =? k) (insertBy descending x l) =
  List.filter (fun a => key a =? k) (x :: l).
Proof.
  induction l as [|y l IH]; [reflexivity|].
  cbn [insertBy]. destruct (Z.leb_spec (key y - key x) 0) as [Hle|Hgt]; [reflexivity|].
  cbn [List.filter] in *. rewrite IH.
  destruct (Z.eqb_spec (key y) k), (Z.eqb_spec (key x) k); try reflexivity. lia.
Qed.

Lemma sortBy_stable k l :
  List.filter (fun a => key a =? k) (sortBy descending l) =
  List.filter (fun a => key a =? k) l.
Proof.
  induction l as [|x l IH]; [reflexivity|].
  cbn [sortBy]. rewrite insertBy_stable. cbn [List.filter]. by rewrite IH.
Qed.

End SizeOrder.

Lemma Sorted_map {A B} (f : A -> B) (R : B -> B -> Prop) l :
  Sorted (fun a b => R (f a) (f b)) l -> Sorted R (map f l).
Proof.
  induction 1 as [|x l Hl IH Hhd]; simpl; constructor; [assumption|].
  destruct Hhd; simpl; by constructor.
Qed.

Lemma filter_map_commute {A B} (f : A -> B) (p : B -> bool) l :
  List.filter p (map f l) = map f (List.filter (fun a => p (f a)) l).
Proof.
  induction l as [|x l IH]; simpl; [reflexivity|].
  destruct (p (f x)); simpl; by rewrite IH.
Qed.

(** ** The report of a normal run *)

Lemma reportEntries_app l1 l2 :
  reportEntries (l1 ++ l2) = reportEntries l1 ++ reportEntries l2.
Proof. apply omap_app. Qed.

Lemma reportSummaries_app l1 l2 :
  reportSummaries (l1 ++ l2) = reportSummaries l1 ++ reportSummaries l2.
Proof. apply omap_app. Qed.

Lemma reportEntries_diagnostics ds : reportEntries (map LogDiagnostic ds) = [].
Proof. induction ds; [reflexivity|assumption]. Qed.

Lemma reportSummaries_diagnostics ds : reportSummaries (map LogDiagnostic ds) = [].
Proof. induction ds; [reflexivity|assumption]. Qed.

Lemma reportEntries_entries {A} (size : A -> Z) (name : A -> string) total l :
  reportEntries (map (fun item => LogEntry (size item) total (name item)) l) =
  map (fun item => (name item, size item)) l.
Proof. induction l as [|x l IH]; [reflexivity|]. simpl. f_equal. exact IH. Qed.

Lemma reportSummaries_entries {A} (size : A -> Z) (name : A -> string) total l :
  reportSummaries (map (fun item => LogEntry (size item) total (name item)) l) = [].
Proof. induction l; [reflexivity|assumption]. Qed.

Section Reports.

Variable parseScript : string -> Exception + Program.

(** The entries and the summary of a normal run, from the final cache. *)
Lemma process_report code compressedCode consumer final :
  process parseScript code compressedCode consumer = Ok tt final ->
  exists parsed parsedCompressed,
    parseScript code = inr parsed /\
    parseScript (compressedOrCode compressedCode code) = inr parsedCompressed /\
    let total := rangeSize (program_range parsedCompressed) in
    let cache := indexCache final in
    let sorted := sortBy (bySizeDescending cache)
                         (List.filter (retained cache) (yieldElmJsDefinitionInfos parsed)) in
    reportEntries (console final) =
      map (fun item => (info_name item, attributedSize cache item)) sorted /\
    reportSummaries (console final) =
      [(fold_left Z.add (map (attributedSize cache) sorted) 0, total)].
Proof.
  intros H. apply process_Ok in H as (c & parsed & pc & ds & _ & Hp & Hpc & _ & Hconsole).
  exists parsed, pc. split; [assumption|]. split; [assumption|].
  cbn zeta. rewrite Hconsole. split.
  - change (LogText "Parsing code" :: ?l) with ([LogText "Parsing code"] ++ l).
    rewrite !reportEntries_app, reportEntries_diagnostics.
    change (LogText "Sorting" :: ?l) with ([LogText "Sorting"] ++ l).
    rewrite !reportEntries_app, reportEntries_entries. cbn. by rewrite app_nil_r.
  - change (LogText "Parsing code" :: ?l) with ([LogText "Parsing code"] ++ l).
    rewrite !reportSummaries_app, reportSummaries_diagnostics.
    change (LogText "Sorting" :: ?l) with ([LogText "Sorting"] ++ l).
    rewrite !reportSummaries_app, reportSummaries_entries. reflexivity.
Qed.

End Reports.

(** ** Disjoint ranges inside an extent *)

Lemma sumSizes_filter (p : Range -> bool) (rs : list Range) :
  sumSizes rs = sumSizes (List.filter p rs) + sumSizes (List.filter (fun r => negb (p r)) rs).
Proof.
  induction rs as [|r rs IH]; [reflexivity|].
  cbn [List.filter sumSizes]. destruct (p r); cbn [negb sumSizes]; lia.
Qed.

Lemma ForallOrdPairs_filter {A} (R : A -> A -> Prop) (p : A -> bool) l :
  ForallOrdPairs R l -> ForallOrdPairs R (List.filter p l).
Proof.
  induction 1 as [|a l Ha Hl IH]; simpl; [constructor|].
  destruct (p a); [|assumption]. constructor; [|assumption].
  apply List.Forall_forall. intros b Hb. apply List.filter_In in Hb as [Hb _].
  rewrite List.Forall_forall in Ha. by apply Ha.
Qed.

(** Ranges that do not overlap and lie between [lo] and [hi] have sizes
    that add up to [hi - lo] at most. *)
Lemma apart_sumSizes (n : nat) :
  forall (rs : list Range) lo hi,
    (List.length rs <= n)%nat ->
    lo <= hi ->
    Forall (fun r => lo <= fst r /\ fst r <= snd r /\ snd r <= hi) rs ->
    ForallOrdPairs apart rs ->
    sumSizes rs <= hi - lo.
Proof.
  induction n as [|n IH]; intros rs lo hi Hlen Hlohi Hin Hapart.
  - destruct rs; [simpl; lia | simpl in Hlen; lia].
  - destruct rs as [|[a b] rs]; [simpl; lia|].
    inversion Hin as [|? ? (Ha & Hab & Hb) Hin']; subst. cbn [fst snd] in *.
    inversion Hapart as [|? ? Hfirst Hrest]; subst.
    set (left := fun r : Range => snd r <=? a).
    rewrite List.Forall_forall in Hin', Hfirst.
    assert (Hleft : sumSizes (List.filter left rs) <= a - lo).
    { apply IH.
      - pose proof (List.filter_length_le left rs). simpl in Hlen. lia.
      - assumption.
      - apply List.Forall_forall. intros r Hr. apply List.filter_In in Hr as [Hr Hl].
        unfold left in Hl. destruct (Hin' r Hr) as (? & ? & ?). lia.
      - by apply ForallOrdPairs_filter. }
    assert (Hright : sumSizes (List.filter (fun r => negb (left r)) rs) <= hi - b).
    { apply IH.
      - pose proof (List.filter_length_le (fun r => negb (left r)) rs).
        simpl in Hlen. lia.
      - assumption.
      - apply List.Forall_forall. intros r Hr. apply List.filter_In in Hr as [Hr Hl].
        unfold left in Hl. destruct (Hin' r Hr) as (? & ? & ?).
        pose proof (Hfirst r Hr) as Hap. unfold apart in Hap. cbn [fst snd] in Hap.
        lia.
      - by apply ForallOrdPairs_filter. }
    cbn [sumSizes]. rewrite (sumSizes_filter left rs).
    unfold rangeSize. cbn [fst snd]. lia.
Qed.

Lemma fold_left_add_from sizes acc :
  fold_left Z.add sizes acc = acc + fold_left Z.add sizes 0.
Proof.
  revert acc. induction sizes as [|z sizes IH]; intros acc; cbn [fold_left]; [lia|].
  rewrite (IH (acc + z)), (IH (0 + z)). lia.
Qed.

Lemma fold_left_add_Permutation sizes sizes' :
  Permutation sizes sizes' -> fold_left Z.add sizes 0 = fold_left Z.add sizes' 0.
Proof.
  induction 1 as [|z l l' _ IH|y z l|l l' l'' _ IH1 _ IH2]; simpl.
  - reflexivity.
  - rewrite (fold_left_add_from l), (fold_left_add_from l'). lia.
  - f_equal. lia.
  - congruence.
Qed.

Lemma fold_left_add_sumSizes cache infos :
  fold_left Z.add (map (attributedSize cache) infos) 0
  = sumSizes (map (translatedRange cache) infos).
Proof.
  induction infos as [|item infos IH]; [reflexivity|].
  cbn [map fold_left sumSizes]. rewrite fold_left_add_from, IH. reflexivity.
Qed.

Lemma fold_left_add_nonnegative sizes acc :
  Forall (fun z => 0 <= z) sizes -> 0 <= acc -> 0 <= fold_left Z.add sizes acc.
Proof.
  intros H. revert acc. induction H as [|z sizes Hz _ IH]; intros acc Hacc; [assumption|].
  simpl. apply IH. lia.
Qed.

(** * Main results *)

(** ** Extractor *)

Lemma yieldVariableDeclarationInfos_directlyBound declarations :
  yieldVariableDeclarationInfos (VariableDeclaration declarations) =
  Contract.directlyBound declarations.
Proof.
  simpl. induction declarations as [|d rest IH]; [reflexivity|].
  simpl. destruct (declarator_id d); simpl; by rewrite IH.
Qed.

Lemma yieldInfos_definitionsOf statement :
  yieldFunctionDeclarationInfo statement ++ yieldVariableDeclarationInfos statement =
  Contract.definitionsOf statement.
Proof.
  destruct statement as [e|id range|declarations|]; try reflexivity.
  apply yieldVariableDeclarationInfos_directlyBound.
Qed.

Lemma yieldElmJsStatements_initializers script :
  yieldElmJsStatements script =
  concat (omap Contract.initializerStatements (program_body script)).
Proof.
  unfold yieldElmJsStatements. induction (program_body script) as [|e rest IH]; [reflexivity|].
  cbn [flat_map]. rewrite IH.
  destruct e as [[[| |]| |]| | |]; reflexivity.
Qed.

Lemma directlyBound_length declarations :
  List.length (Contract.directlyBound declarations) = Contract.countIdentifiers declarations.
Proof.
  induction declarations as [|d rest IH]; [reflexivity|].
  simpl. destruct (declarator_id d); simpl; by rewrite IH.
Qed.

Lemma definitionsOf_length statement :
  List.length (Contract.definitionsOf statement) = Contract.countOf statement.
Proof.
  destruct statement; try reflexivity. apply directlyBound_length.
Qed.

(** C9. The extractor yields, for the statements of the enclosing
    initializers in order, one definition per function declaration (its
    name, the statement's range) and one per declarator that binds an
    identifier directly (its name, the declarator's range), and nothing
    for any other statement; the count is the number of such declarations;
    the sequence is empty unless some top-level statement is an expression
    statement that calls a function literal. *)
Theorem extractor_contract (script : Program) :
  yieldElmJsDefinitionInfos script = Contract.extract script /\
  List.length (yieldElmJsDefinitionInfos script) =
    list_sum (map Contract.countOf
                  (concat (omap Contract.initializerStatements (program_body script)))) /\
  (yieldElmJsDefinitionInfos script = [] \/
   exists body, In (ExpressionStatement (CallExpression (FunctionExpression body)))
                   (program_body script)).
Proof.
  assert (Heq : yieldElmJsDefinitionInfos script = Contract.extract script).
  { unfold yieldElmJsDefinitionInfos, Contract.extract.
    rewrite yieldElmJsStatements_initializers.
    induction (concat _) as [|statement rest IH]; [reflexivity|].
    cbn [flat_map map concat]. by rewrite IH, yieldInfos_definitionsOf. }
  split; [exact Heq|]. split.
  - rewrite Heq. unfold Contract.extract.
    induction (concat (omap _ _)) as [|statement rest IH]; [reflexivity|].
    cbn [map concat list_sum]. rewrite List.length_app, IH, definitionsOf_length.
    reflexivity.
  - rewrite Heq. unfold Contract.extract.
    induction (program_body script) as [|e rest IH]; [by left|].
    destruct (Contract.initializerStatements e) as [body|] eqn:E.
    + right. exists body.
      destruct e as [[[| |]| |]| | |]; try discriminate.
      injection E as ->. by left.
    + cbn [omap list_omap]. rewrite E.
      destruct IH as [IH|[body IH]]; [by left|].
      right. exists body. by right.
Qed.


(** ** Runs *)

Section ReportClaims.

Variable parseScript : string -> Exception + Program.

(** C7. In the report of a run that ends normally, sizes never increase
    from one entry to the next, the entries are the retained definitions,
    and the entries of any one size stand in the order in which the
    extractor yielded them. *)
Theorem report_sorted_stable code compressedCode consumer final :
  process parseScript code compressedCode consumer = Ok tt final ->
  exists parsed,
    parseScript code = inr parsed /\
    let cache := indexCache final in
    let entry := fun item => (info_name item, attributedSize cache item) in
    let kept := List.filter (retained cache) (yieldElmJsDefinitionInfos parsed) in
    let entries := reportEntries (console final) in
    Sorted (fun a b => snd a >= snd b) entries /\
    Permutation entries (map entry kept) /\
    forall k,
      List.filter (fun e => snd e =? k) entries =
      map entry (List.filter (fun item => attributedSize cache item =? k) kept).
Proof.
  intros H. apply process_report in H as (parsed & pc & Hparsed & _ & Hentries & _).
  exists parsed. split; [assumption|]. cbn zeta in *. rewrite Hentries.
  split; [|split].
  - apply Sorted_map. cbn [snd]. apply sortBy_Sorted.
  - apply Permutation_map. apply sortBy_Permutation.
  - intros k. rewrite filter_map_commute. cbn [snd]. f_equal.
    apply sortBy_stable.
Qed.

(** C10. Every entry of the report of a run that ends normally has a
    name with a '$' in it: the entries are the extracted definitions that
    pass the test [name.indexOf('$') >= 0] (and have a size that is not
    negative), and the range sum adds the sizes of these entries only.
    The test is part of [process]: there is no predicate to pass in. *)
Theorem report_names_contain_dollar code compressedCode consumer final :
  process parseScript code compressedCode consumer = Ok tt final ->
  let entries := reportEntries (console final) in
  Forall (fun e => 0 <= JsString.indexOf (fst e) "$"%char) entries /\
  (exists parsed,
      parseScript code = inr parsed /\
      Permutation entries
        (map (fun item => (info_name item, attributedSize (indexCache final) item))
             (List.filter
                (fun item =>
                   (0 <=? JsString.indexOf (info_name item) "$"%char)
                   && (0 <=? attributedSize (indexCache final) item))
                (yieldElmJsDefinitionInfos parsed)))) /\
  (exists total,
      reportSummaries (console final) = [(fold_left Z.add (map snd entries) 0, total)]).
Proof.
  intros H. apply process_report in H as (parsed & pc & Hparsed & _ & Hentries & Hsum).
  cbn zeta in *. rewrite Hentries. split; [|split].
  - apply List.Forall_forall. intros e Hin.
    apply List.in_map_iff in Hin as (item & <- & Hin).
    apply (Permutation_in _ (sortBy_Permutation _ _)) in Hin.
    apply List.filter_In in Hin as [_ Hret].
    unfold retained, hasDollar in Hret. apply andb_true_iff in Hret as [Hret _].
    cbn [fst]. lia.
  - exists parsed. split; [assumption|].
    apply Permutation_map. apply sortBy_Permutation.
  - eexists. rewrite Hsum. by rewrite List.map_map.
Qed.

(** C6, as the code has it. In a run that ends normally every retained
    size is at least 0, and the range sum of the summary is the sum of
    the retained sizes and at least 0. It is at most the size of the
    minified program when the translated ranges of the retained
    definitions lie inside the range of the minified program and no two
    of them overlap. *)
Theorem coverage_bound code compressedCode consumer final :
  process parseScript code compressedCode consumer = Ok tt final ->
  let entries := reportEntries (console final) in
  Forall (fun e => 0 <= snd e) entries /\
  exists parsed parsedCompressed rangeSum,
    parseScript code = inr parsed /\
    parseScript (compressedOrCode compressedCode code) = inr parsedCompressed /\
    reportSummaries (console final)
      = [(rangeSum, rangeSize (program_range parsedCompressed))] /\
    rangeSum = fold_left Z.add (map snd entries) 0 /\
    0 <= rangeSum /\
    let translated :=
      map (translatedRange (indexCache final))
          (List.filter (retained (indexCache final)) (yieldElmJsDefinitionInfos parsed)) in
    let extent := program_range parsedCompressed in
    (fst extent <= snd extent ->
     Forall (fun r => fst extent <= fst r /\ snd r <= snd extent) translated ->
     ForallOrdPairs apart translated ->
     rangeSum <= rangeSize extent).
Proof.
  intros H. apply process_report in H as (parsed & pc & Hparsed & Hpc & Hentries & Hsum).
  cbn zeta in *.
  set (cache := indexCache final) in *.
  set (kept := List.filter (retained cache) (yieldElmJsDefinitionInfos parsed)) in *.
  assert (Hkept : Forall (fun item => 0 <= attributedSize cache item) kept).
  { apply List.Forall_forall. intros item Hin.
    apply List.filter_In in Hin as [_ Hret].
    unfold retained in Hret. apply andb_true_iff in Hret as [_ Hret]. lia. }
  assert (Hall : Forall (fun e : string * Z => 0 <= snd e)
                        (reportEntries (console final))).
  { rewrite Hentries. apply List.Forall_forall. intros e Hin.
    apply List.in_map_iff in Hin as (item & <- & Hin).
    apply (Permutation_in _ (sortBy_Permutation _ _)) in Hin.
    rewrite List.Forall_forall in Hkept. by apply Hkept. }
  assert (Hmap : map snd (reportEntries (console final))
                 = map (attributedSize cache) (sortBy (bySizeDescending cache) kept))
    by (by rewrite Hentries, List.map_map).
  split; [exact Hall|].
  exists parsed, pc. eexists. split; [assumption|]. split; [assumption|].
  split; [exact Hsum|]. split; [by rewrite Hmap|]. split.
  - rewrite <- Hmap. apply fold_left_add_nonnegative; [|lia].
    apply List.Forall_map. exact Hall.
  - intros Hextent Hinside Hapart.
    rewrite (fold_left_add_Permutation _ (map (attributedSize cache) kept))
      by (apply Permutation_map, sortBy_Permutation).
    rewrite fold_left_add_sumSizes.
    apply (apart_sumSizes (List.length (map (translatedRange cache) kept)));
      [lia | assumption | | assumption].
    apply List.Forall_forall. intros r Hr.
    rewrite List.Forall_forall in Hinside. destruct (Hinside r Hr) as [Hlo Hhi].
    apply List.in_map_iff in Hr as (item & <- & Hin).
    rewrite List.Forall_forall in Hkept. specialize (Hkept item Hin).
    unfold translatedRange, attributedSize in *. cbn [fst snd] in *. lia.
Qed.

(** C5, on the code. Without a consumer [process] throws at
    [consumer.computeColumnSpans()], before anything is parsed: [analyse]
    with [terser] off ends with a TypeError whenever the file can be
    read. *)
Theorem analyse_without_terser_throws readFile minify elmOutputJsFilePath :
  analyse parseScript readFile minify elmOutputJsFilePath false =
    match readFile elmOutputJsFilePath with
    | inl e => Throw e initialState
    | inr _ => Throw TypeError (mkState ∅ [LogText "Parsing code"])
    end.
Proof.
  unfold analyse. destruct (readFile elmOutputJsFilePath); reflexivity.
Qed.

End ReportClaims.

(** An instance: the run on [Sample.twoVars], whose two entries have the
    same size. *)
Lemma report_sorted_stable_witness :
  process Sample.twoVarsParse Sample.twoVars (Some Sample.twoVarsMinified)
          (Some Sample.overlappingConsumer)
    = Ok tt (Sample.finalState Sample.overlappingRun) /\
  exists parsed,
    Sample.twoVarsParse Sample.twoVars = inr parsed /\
    Sorted (fun a b => snd a >= snd b)
           (reportEntries (console (Sample.finalState Sample.overlappingRun))).
Proof.
  assert (H : process Sample.twoVarsParse Sample.twoVars (Some Sample.twoVarsMinified)
                      (Some Sample.overlappingConsumer)
              = Ok tt (Sample.finalState Sample.overlappingRun))
    by (vm_compute; reflexivity).
  split; [exact H|].
  destruct (report_sorted_stable _ _ _ _ _ H) as (parsed & Hparsed & Hsorted & _).
  exists parsed. split; assumption.
Defined.

(** An instance: the run on [Sample.bundle], where [d] is extracted and
    not reported. *)
Lemma report_names_contain_dollar_witness :
  process (Sample.parseAs Sample.bundle Sample.bundleProgram) Sample.bundle
          (Some Sample.bundle) (Some Sample.identityConsumer)
    = Ok tt (Sample.finalState Sample.bundleRun) /\
  Forall (fun e => 0 <= JsString.indexOf (fst e) "$"%char)
         (reportEntries (console (Sample.finalState Sample.bundleRun))).
Proof.
  assert (H : process (Sample.parseAs Sample.bundle Sample.bundleProgram) Sample.bundle
          (Some Sample.bundle) (Some Sample.identityConsumer)
    = Ok tt (Sample.finalState Sample.bundleRun))
    by (vm_compute; reflexivity).
  split; [exact H|].
  exact (proj1 (report_names_contain_dollar _ _ _ _ _ H)).
Defined.

(** An instance: the run on [Sample.bundle]. *)
Lemma coverage_bound_witness :
  process (Sample.parseAs Sample.bundle Sample.bundleProgram) Sample.bundle
          (Some Sample.bundle) (Some Sample.identityConsumer)
    = Ok tt (Sample.finalState Sample.bundleRun) /\
  Forall (fun e => 0 <= snd e)
         (reportEntries (console (Sample.finalState Sample.bundleRun))).
Proof.
  assert (H : process (Sample.parseAs Sample.bundle Sample.bundleProgram) Sample.bundle
          (Some Sample.bundle) (Some Sample.identityConsumer)
    = Ok tt (Sample.finalState Sample.bundleRun))
    by (vm_compute; reflexivity).
  split; [exact H|].
  exact (proj1 (coverage_bound _ _ _ _ _ H)).
Defined.

(** C6, as stated, fails: a table that sends two definitions onto the same
    stretch of the minified text gives a range sum of 56 for a minified
    program of 29 characters, printed as 193.103%. *)
Lemma coverage_bound_counterexample :
  exists final,
    Sample.overlappingRun = Ok tt final /\
    reportEntries (console final) = [("a$", 28); ("b$", 28)] /\
    reportSummaries (console final) = [(56, 29)] /\
    ~ (56 <= 29) /\
    render (LogSummary 56 29) = Some "Range sum: 56 total: 29, analized 193.103%".
Proof.
  eexists. split; [vm_compute; reflexivity|].
  split; [vm_compute; reflexivity|]. split; [vm_compute; reflexivity|].
  split; [lia|]. vm_compute. reflexivity.
Qed.

(** ** Translator and attributor *)

Section TranslatorClaims.

Variable code : string.
Variable compressedSplat : list string.

(** Once an offset is in the cache, later queries return the cached
    answer for either boundary. *)
Lemma compressIndex_later consumer index right s v s1 right' s2 :
  compressIndex code compressedSplat consumer index right s = Ok v s1 ->
  indexCache s1 ⊆ indexCache s2 ->
  compressIndex code compressedSplat consumer index right' s2 = Ok v s2.
Proof.
  destruct consumer as [c|].
  - intros H Hsub. apply compressIndex_Ok in H as (Hv & _ & _).
    apply compressIndex_hit. eapply lookup_weaken; eauto.
  - intros [= <- <-] _. reflexivity.
Qed.

(** C3, as the code has it. A definition whose translated size is
    negative is discarded without an exception. When its two endpoints
    (the end one moved back by one character) lie on the same line of the
    unminified text nothing is printed; otherwise one diagnostic is
    printed, with the name, the source range, the line and column of both
    endpoints, both mappings, and the translated pair. *)
Theorem negative_range_policy c info s start' s1 end' s2 :
  compressIndex code compressedSplat (Some c) (fst (info_range info)) false s
    = Ok start' s1 ->
  compressIndex code compressedSplat (Some c) (snd (info_range info)) true s1
    = Ok end' s2 ->
  toNumber end' - toNumber start' < 0 ->
  let range := info_range info in
  let sameSourceLine :=
    line (indexToLineColumn code (fst range) false)
    =? line (indexToLineColumn code (snd range) true) in
  compressRange code compressedSplat (Some c) info s =
    Ok None
       (mkState (indexCache s2)
          (console s ++
           if sameSourceLine then []
           else [LogDiagnostic
                   (mkDiagnostic (info_name info) range
                      (indexToLineColumn code (fst range) false,
                       indexToLineColumn code (snd range) true)
                      (endpointDiagnostic code c (fst range) false,
                       endpointDiagnostic code c (snd range) true)
                      (start', end'))])).
Proof.
  intros H1 H2 Hneg. cbn zeta. unfold compressRange.
  rewrite (bind_step _ _ _ _ _ H1), (bind_step _ _ _ _ _ H2).
  apply compressIndex_Ok in H1 as (_ & _ & Hc1).
  apply compressIndex_Ok in H2 as (_ & _ & Hc2).
  unfold rangeSize, toNumbers. cbn [fst snd].
  destruct (Z.ltb_spec (toNumber end' - toNumber start') 0); [|lia].
  destruct (_ =? _).
  - unfold ret. by rewrite app_nil_r, <- Hc1, <- Hc2, state_eta.
  - unfold bind, consoleLog, ret. by rewrite <- Hc1, <- Hc2.
Qed.

End TranslatorClaims.

(** An instance: the alias of [Sample.alias], of translated size 5 - 13. *)
Lemma negative_range_policy_witness :
  let translateIndex :=
    compressIndex Sample.alias Sample.aliasMinifiedSplat (Some Sample.crossingConsumer) in
  let s1 := mkState {[ 16 := Some 13 ]} [] in
  let s2 := mkState (<[ 21 := Some 5 ]> {[ 16 := Some 13 ]}) [] in
  translateIndex 16 false initialState = Ok (Some 13) s1 /\
  translateIndex 21 true s1 = Ok (Some 5) s2 /\
  toNumber (Some 5) - toNumber (Some 13) < 0 /\
  compressRange Sample.alias Sample.aliasMinifiedSplat (Some Sample.crossingConsumer)
                Sample.aliasInfo initialState
    = Ok None s2.
Proof.
  cbn zeta.
  assert (H1 : compressIndex Sample.alias Sample.aliasMinifiedSplat
                 (Some Sample.crossingConsumer) (fst (info_range Sample.aliasInfo)) false
                 initialState
               = Ok (Some 13) (mkState {[ 16 := Some 13 ]} []))
    by (vm_compute; reflexivity).
  assert (H2 : compressIndex Sample.alias Sample.aliasMinifiedSplat
                 (Some Sample.crossingConsumer) (snd (info_range Sample.aliasInfo)) true
                 (mkState {[ 16 := Some 13 ]} [])
               = Ok (Some 5) (mkState (<[ 21 := Some 5 ]> {[ 16 := Some 13 ]}) []))
    by (vm_compute; reflexivity).
  assert (H3 : toNumber (Some 5) - toNumber (Some 13) < 0) by (simpl; lia).
  split; [exact H1|]. split; [exact H2|]. split; [exact H3|].
  exact (negative_range_policy _ _ _ _ _ _ _ _ _ H1 H2 H3).
Defined.

(** C2, on the code. The cache is keyed by the offset alone. With the
    identity table the offset 27, where [a$] ends and [b$] starts, is
    translated to 26 as an end and to 27 as a start; after the query for
    the end, the query for the start answers 26. In the run, the two
    declarations of 15 characters are reported with the sizes 14 and 15. *)
Theorem memo_ignores_boundary :
  let splat := JsString.split Sample.adjacent in
  let translateIndex :=
    compressIndex Sample.adjacent splat (Some Sample.identityConsumer) in
  Contract.translate Sample.adjacent splat Sample.identityConsumer 27 true
    = inr (Some 26) /\
  Contract.translate Sample.adjacent splat Sample.identityConsumer 27 false
    = inr (Some 27) /\
  (exists s1,
      translateIndex 27 true initialState = Ok (Some 26) s1 /\
      translateIndex 27 false s1 = Ok (Some 26) s1) /\
  (exists final,
      Sample.adjacentRun = Ok tt final /\
      reportEntries (console final) = [("b$", 15); ("a$", 14)]).
Proof.
  cbn zeta. split; [vm_compute; reflexivity|]. split; [vm_compute; reflexivity|].
  split.
  - eexists. split; vm_compute; reflexivity.
  - eexists. split; vm_compute; reflexivity.
Qed.

(** C4, as the code has it. An endpoint that the table cannot map, and
    whose offset is not yet in the cache, is translated to [null] without
    an exception, and [null] is cached; an offset that is in the cache is
    answered from there, without a look at the table. The attributor has
    no test for [null]: it computes the size with [null] read as 0,
    returns [null] exactly when that size is negative and the pair
    otherwise; so with an unmapped start that is not yet cached it
    returns the pair ([null], end') unless end' is negative, and with an
    unmapped end that is not yet cached it returns [null] exactly when
    start' is positive. In a run that ends normally, an extracted
    definition has an entry with that size exactly when its name has a
    '$' and that size is not negative. *)
Theorem unmapped_policy (parseScript : string -> Exception + Program) code c :
  (forall compressedSplat index right s,
      indexCache s !! index = None ->
      generatedPositionFor c (indexToLineColumn code index right) = None ->
      compressIndex code compressedSplat (Some c) index right s =
        Ok None (mkState (<[index := None]> (indexCache s)) (console s))) /\
  (forall compressedSplat index right s v,
      indexCache s !! index = Some v ->
      compressIndex code compressedSplat (Some c) index right s = Ok v s) /\
  (forall compressedSplat info s r s',
      compressRange code compressedSplat (Some c) info s = Ok r s' ->
      exists start' end',
        indexCache s' !! fst (info_range info) = Some start' /\
        indexCache s' !! snd (info_range info) = Some end' /\
        r = if toNumber end' - toNumber start' <? 0 then None
            else Some (start', end')) /\
  (forall compressedSplat info s r s',
      indexCache s !! fst (info_range info) = None ->
      generatedPositionFor c (indexToLineColumn code (fst (info_range info)) false) = None ->
      compressRange code compressedSplat (Some c) info s = Ok r s' ->
      exists end',
        indexCache s' !! fst (info_range info) = Some None /\
        indexCache s' !! snd (info_range info) = Some end' /\
        r = if toNumber end' <? 0 then None else Some (None, end')) /\
  (forall compressedSplat info s r s',
      indexCache s !! snd (info_range info) = None ->
      fst (info_range info) <> snd (info_range info) ->
      generatedPositionFor c (indexToLineColumn code (snd (info_range info)) true) = None ->
      compressRange code compressedSplat (Some c) info s = Ok r s' ->
      exists start',
        indexCache s' !! fst (info_range info) = Some start' /\
        indexCache s' !! snd (info_range info) = Some None /\
        r = if 0 <? toNumber start' then None else Some (start', None)) /\
  (forall compressedCode final parsed info,
      process parseScript code compressedCode (Some c) = Ok tt final ->
      parseScript code = inr parsed ->
      In info (yieldElmJsDefinitionInfos parsed) ->
      exists start' end',
        indexCache final !! fst (info_range info) = Some start' /\
        indexCache final !! snd (info_range info) = Some end' /\
        (In (info_name info, toNumber end' - toNumber start')
            (reportEntries (console final))
         <-> 0 <= JsString.indexOf (info_name info) "$"%char /\
             0 <= toNumber end' - toNumber start')).
Proof.
  assert (Hmiss : forall compressedSplat index right s,
             indexCache s !! index = None ->
             generatedPositionFor c (indexToLineColumn code index right) = None ->
             compressIndex code compressedSplat (Some c) index right s =
               Ok None (mkState (<[index := None]> (indexCache s)) (console s))).
  { intros compressedSplat index right s Hnone Hunmapped.
    rewrite (compressIndex_miss _ _ _ _ _ _ Hnone).
    unfold Contract.translate. by rewrite Hunmapped. }
  assert (Hpair : forall compressedSplat info s r s',
             compressRange code compressedSplat (Some c) info s = Ok r s' ->
             exists start' s1 end' s2,
               compressIndex code compressedSplat (Some c) (fst (info_range info)) false s
                 = Ok start' s1 /\
               compressIndex code compressedSplat (Some c) (snd (info_range info)) true s1
                 = Ok end' s2 /\
               indexCache s' = indexCache s2 /\
               r = if toNumber end' - toNumber start' <? 0 then None
                   else Some (start', end')).
  { intros compressedSplat info s r s' H. unfold compressRange in H.
    apply bind_Ok in H as (a & s1 & Ha & H).
    apply bind_Ok in H as (b & s2 & Hb & H).
    exists a, s1, b, s2. split; [assumption|]. split; [assumption|].
    unfold rangeSize, toNumbers in H. cbn [fst snd] in H.
    destruct (toNumber b - toNumber a <? 0).
    - destruct (_ =? _).
      + by injection H as <- <-.
      + apply bind_Ok in H as ([] & s3 & Hlog & H).
        injection Hlog as <-. by injection H as <- <-.
    - by injection H as <- <-. }
  split; [exact Hmiss|]. split; [|split; [|split; [|split]]].
  - intros compressedSplat index right s v Hv. by apply compressIndex_hit.
  - intros compressedSplat info s r s' H.
    apply Hpair in H as (a & s1 & b & s2 & Ha & Hb & -> & ->).
    apply compressIndex_Ok in Ha as (Ha & _ & _).
    apply compressIndex_Ok in Hb as (Hb & Hsub & _).
    assert (Ha2 : indexCache s2 !! fst (info_range info) = Some a)
      by (eapply lookup_weaken; eauto).
    eauto.
  - intros compressedSplat info s r s' Hnone Hunmapped H.
    apply Hpair in H as (a & s1 & b & s2 & Ha & Hb & -> & ->).
    rewrite (Hmiss _ _ _ _ Hnone Hunmapped) in Ha. injection Ha as <- <-.
    apply compressIndex_Ok in Hb as (Hb & Hsub & _).
    assert (Ha2 : indexCache s2 !! fst (info_range info) = Some None).
    { eapply lookup_weaken; [|exact Hsub]. cbn [indexCache]. apply lookup_insert_eq. }
    exists b. split; [assumption|]. split; [assumption|].
    cbn [toNumber]. by rewrite Z.sub_0_r.
  - intros compressedSplat info s r s' Hnone Hne Hunmapped H.
    apply Hpair in H as (a & s1 & b & s2 & Ha & Hb & -> & ->).
    assert (Hnone1 : indexCache s1 !! snd (info_range info) = None).
    { destruct (indexCache s !! fst (info_range info)) as [w|] eqn:E.
      - rewrite (compressIndex_hit _ _ _ _ _ _ _ E) in Ha. by injection Ha as _ <-.
      - rewrite (compressIndex_miss _ _ _ _ _ _ E) in Ha.
        destruct (Contract.translate _ _ _ _ _) as [e|w]; [discriminate|].
        injection Ha as _ <-. cbn [indexCache].
        by rewrite lookup_insert_ne. }
    apply compressIndex_Ok in Ha as (Ha & _ & _).
    rewrite (Hmiss _ _ _ _ Hnone1 Hunmapped) in Hb. injection Hb as <- <-.
    exists a. cbn [indexCache].
    split; [by rewrite lookup_insert_ne|]. split; [apply lookup_insert_eq|].
    cbn [toNumber].
    destruct (Z.ltb_spec (0 - toNumber a) 0), (Z.ltb_spec 0 (toNumber a));
      try lia; reflexivity.
  - intros compressedCode final parsed info Hrun Hparsed Hin.
    pose proof Hrun as Hcov.
    apply process_Ok in Hcov
      as (c' & parsed' & pc' & ds & _ & Hparsed' & _ & Hcov & _).
    rewrite Hparsed in Hparsed'. injection Hparsed' as <-.
    apply process_report in Hrun as (parsed' & pc & Hparsed' & _ & Hentries & _).
    rewrite Hparsed in Hparsed'. injection Hparsed' as <-.
    rewrite List.Forall_forall in Hcov.
    destruct (Hcov info Hin) as [[a Ha] [b Hb]].
    exists a, b. split; [assumption|]. split; [assumption|].
    set (cache := indexCache final) in *.
    assert (Hsize : attributedSize cache info = toNumber b - toNumber a).
    { unfold attributedSize, cachedNumber. by rewrite Ha, Hb. }
    rewrite Hentries, <- Hsize. rewrite List.in_map_iff. split.
    + intros (item & [= Hname Hsame] & Hitem).
      apply (Permutation_in _ (sortBy_Permutation _ _)) in Hitem.
      apply List.filter_In in Hitem as [_ Hret].
      unfold retained, hasDollar in Hret. apply andb_true_iff in Hret as [Hd Hs].
      rewrite Hname in Hd. rewrite Hsame in Hs. lia.
    + intros [Hd Hs]. exists info. split; [reflexivity|].
      apply (Permutation_in _ (Permutation_sym (sortBy_Permutation _ _))).
      apply List.filter_In. split; [assumption|].
      unfold retained, hasDollar. apply andb_true_iff. lia.
Qed.

(** An instance: the run on [Sample.oneVar], where the start of [a$=1]
    has no mapping. *)
Lemma unmapped_policy_witness :
  process (Sample.parseAs Sample.oneVar Sample.oneVarProgram) Sample.oneVar
          (Some Sample.oneVar) (Some Sample.startUnmappedConsumer)
    = Ok tt (Sample.finalState Sample.startUnmappedRun) /\
  Sample.parseAs Sample.oneVar Sample.oneVarProgram Sample.oneVar
    = inr Sample.oneVarProgram /\
  In Sample.oneVarInfo (yieldElmJsDefinitionInfos Sample.oneVarProgram) /\
  exists start' end',
    indexCache (Sample.finalState Sample.startUnmappedRun) !! 16 = Some start' /\
    indexCache (Sample.finalState Sample.startUnmappedRun) !! 20 = Some end' /\
    (In ("a$", toNumber end' - toNumber start')
        (reportEntries (console (Sample.finalState Sample.startUnmappedRun)))
     <-> 0 <= JsString.indexOf "a$" "$"%char /\ 0 <= toNumber end' - toNumber start').
Proof.
  assert (H1 : process (Sample.parseAs Sample.oneVar Sample.oneVarProgram) Sample.oneVar
                 (Some Sample.oneVar) (Some Sample.startUnmappedConsumer)
               = Ok tt (Sample.finalState Sample.startUnmappedRun))
    by (vm_compute; reflexivity).
  assert (H2 : Sample.parseAs Sample.oneVar Sample.oneVarProgram Sample.oneVar
               = inr Sample.oneVarProgram) by (vm_compute; reflexivity).
  assert (H3 : In Sample.oneVarInfo (yieldElmJsDefinitionInfos Sample.oneVarProgram))
    by (left; reflexivity).
  split; [exact H1|]. split; [exact H2|]. split; [exact H3|].
  exact (proj2 (proj2 (proj2 (proj2 (proj2
           (unmapped_policy (Sample.parseAs Sample.oneVar Sample.oneVarProgram)
                            Sample.oneVar Sample.startUnmappedConsumer)))))
           (Some Sample.oneVar) _ _ Sample.oneVarInfo H1 H2 H3).
Defined.

(** *** Translating afresh *)

Lemma linesLength_nonnegative ls : 0 <= linesLength ls.
Proof.
  induction ls as [|l ls IH]; [reflexivity|].
  cbn [linesLength]. unfold JsString.length. lia.
Qed.

(** The lines before a later line hold an earlier line whole, with its
    line break. *)
Lemma linesLength_firstn_lt ls n m t :
  (n < m)%nat -> ls !! n = Some t ->
  linesLength (firstn n ls) + JsString.length t + 1 <= linesLength (firstn m ls).
Proof.
  revert n m. induction ls as [|x ls IH]; intros n m Hlt Hn; [discriminate|].
  destruct m as [|m]; [lia|]. destruct n as [|n].
  - injection Hn as ->. cbn [firstn linesLength].
    pose proof (linesLength_nonnegative (firstn m ls)). lia.
  - cbn [firstn linesLength]. specialize (IH n m ltac:(lia) Hn). lia.
Qed.

(** The offset of a position in the minified text. *)
Lemma generatedOffset_inText compressedSplat q :
  inText compressedSplat q ->
  generatedOffset compressedSplat (Some q)
  = inr (Some (column q + linesLength (firstn (Z.to_nat (line q - 1)) compressedSplat))).
Proof.
  intros (_ & _ & t & Ht & _). apply lookup_lt_Some in Ht.
  unfold generatedOffset.
  pose proof (addLineLengths_firstn compressedSplat (Z.to_nat (line q - 1)) 0 (column q))
    as Hsum.
  change (Z.of_nat 0 + 1) with 1 in Hsum. rewrite Hsum by lia. by rewrite drop_0.
Qed.

(** Offsets follow the reading order of the positions in the minified
    text. *)
Lemma generatedOffset_monotone compressedSplat p q v w :
  inText compressedSplat p -> inText compressedSplat q ->
  positionLe p q ->
  generatedOffset compressedSplat (Some p) = inr v ->
  generatedOffset compressedSplat (Some q) = inr w ->
  toNumber v <= toNumber w.
Proof.
  intros Hp Hq Hle Hv Hw.
  rewrite (generatedOffset_inText _ _ Hp) in Hv. injection Hv as <-.
  rewrite (generatedOffset_inText _ _ Hq) in Hw. injection Hw as <-.
  destruct Hp as (Hp1 & _ & t & Ht & Hcol). destruct Hq as (Hq1 & Hq0 & _).
  cbn [toNumber]. destruct Hle as [Hlt|[Heq Hc]].
  - pose proof (linesLength_firstn_lt compressedSplat (Z.to_nat (line p - 1))
                  (Z.to_nat (line q - 1)) t ltac:(lia) Ht). lia.
  - rewrite Heq. lia.
Qed.

(** Without the cache, the right boundary is not beyond the left one for a
    table that follows the reading order of the text. *)
Lemma translate_right_le_left code compressedSplat c index r l :
  1 <= index <= JsString.length code ->
  (forall p q v w,
      positionLe p q ->
      generatedOffset compressedSplat (generatedPositionFor c p) = inr v ->
      generatedOffset compressedSplat (generatedPositionFor c q) = inr w ->
      toNumber v <= toNumber w) ->
  Contract.translate code compressedSplat c index true = inr r ->
  Contract.translate code compressedSplat c index false = inr l ->
  toNumber r <= toNumber l.
Proof.
  intros Hindex Hmono Hr Hl.
  exact (Hmono _ _ _ _ (indexToLineColumn_right_before_left code index Hindex) Hr Hl).
Qed.

(** A table that does not follow the reading order breaks this when each
    boundary is translated afresh. *)
Lemma translate_right_beyond_left :
  Contract.translate Sample.alias Sample.aliasMinifiedSplat Sample.crossingConsumer 17 true
    = inr (Some 13) /\
  Contract.translate Sample.alias Sample.aliasMinifiedSplat Sample.crossingConsumer 17 false
    = inr (Some 5).
Proof. split; vm_compute; reflexivity. Qed.

(** With the identity table, for every offset inside the text: once it
    has been translated as an end, its translation as a start is the
    cached end, one less than what a fresh translation gives. *)
Lemma identity_left_after_right code index out :
  1 <= index <= JsString.length code ->
  let translateIndex :=
    compressIndex code (JsString.split code) (Some Sample.identityConsumer) in
  let s1 := mkState (<[ index := Some (index - 1) ]> ∅) out in
  translateIndex index true (mkState ∅ out) = Ok (Some (index - 1)) s1 /\
  translateIndex index false s1 = Ok (Some (index - 1)) s1 /\
  Contract.translate code (JsString.split code) Sample.identityConsumer index false
    = inr (Some index).
Proof.
  intros Hindex. cbn zeta. split; [|split].
  - rewrite compressIndex_miss by reflexivity.
    by rewrite identity_translate_right.
  - apply compressIndex_hit. apply lookup_insert_eq.
  - apply identity_translate_left. lia.
Qed.

(** C8, as the code has it. For a table that keeps the reading order,
    and an offset of the unminified text whose two positions (of the
    character before it, and its own) the table sends into the minified
    text, if it maps them, and whose own position it does map: when the
    offset is not in the cache, both translations are computed without
    an exception, and the one for the right boundary (the end of a
    construct) is not larger than the one for the left boundary (the
    start of the next). *)
Theorem boundary_mode_monotone code compressedSplat c index s s' :
  1 <= index <= JsString.length code ->
  orderPreserving c ->
  (forall right q,
      generatedPositionFor c (indexToLineColumn code index right) = Some q ->
      inText compressedSplat q) ->
  generatedPositionFor c (indexToLineColumn code index false) <> None ->
  indexCache s !! index = None ->
  indexCache s' !! index = None ->
  exists r l,
    compressIndex code compressedSplat (Some c) index true s
      = Ok r (mkState (<[index := r]> (indexCache s)) (console s)) /\
    compressIndex code compressedSplat (Some c) index false s'
      = Ok l (mkState (<[index := l]> (indexCache s')) (console s')) /\
    toNumber r <= toNumber l.
Proof.
  intros Hindex Horder Hinside Hmapped Hs Hs'.
  rewrite (compressIndex_miss _ _ _ _ _ _ Hs), (compressIndex_miss _ _ _ _ _ _ Hs').
  unfold Contract.translate.
  pose proof (indexToLineColumn_right_before_left code index Hindex) as Hle.
  destruct (generatedPositionFor c (indexToLineColumn code index false)) as [ql|] eqn:El;
    [|congruence].
  pose proof (Hinside false _ El) as Hql.
  rewrite (generatedOffset_inText _ _ Hql).
  destruct (generatedPositionFor c (indexToLineColumn code index true)) as [qr|] eqn:Er.
  - pose proof (Hinside true _ Er) as Hqr.
    rewrite (generatedOffset_inText _ _ Hqr).
    do 2 eexists. split; [reflexivity|]. split; [reflexivity|].
    eapply (generatedOffset_monotone compressedSplat qr ql); eauto using generatedOffset_inText.
  - cbn [generatedOffset]. do 2 eexists. split; [reflexivity|]. split; [reflexivity|].
    cbn [toNumber]. destruct Hql as (_ & Hcol & _).
    pose proof (linesLength_nonnegative
                  (firstn (Z.to_nat (line ql - 1)) compressedSplat)). lia.
Qed.

(** An instance: the offset 27 of [Sample.adjacent], where [a$] ends and
    [b$] starts, under the identity table. *)
Lemma boundary_mode_monotone_witness :
  let splat := JsString.split Sample.adjacent in
  orderPreserving Sample.identityConsumer /\
  (forall right q,
      generatedPositionFor Sample.identityConsumer
                           (indexToLineColumn Sample.adjacent 27 right) = Some q ->
      inText splat q) /\
  exists r l,
    compressIndex Sample.adjacent splat (Some Sample.identityConsumer) 27 true initialState
      = Ok r (mkState (<[27 := r]> ∅) []) /\
    compressIndex Sample.adjacent splat (Some Sample.identityConsumer) 27 false initialState
      = Ok l (mkState (<[27 := l]> ∅) []) /\
    toNumber r <= toNumber l.
Proof.
  cbn zeta.
  assert (H1 : 1 <= 27 <= JsString.length Sample.adjacent) by (vm_compute; split; discriminate).
  assert (H2 : orderPreserving Sample.identityConsumer).
  { intros p q p' q' Hle [= <-] [= <-]. exact Hle. }
  assert (H3 : forall right q,
             generatedPositionFor Sample.identityConsumer
                                  (indexToLineColumn Sample.adjacent 27 right) = Some q ->
             inText (JsString.split Sample.adjacent) q).
  { intros right q [= <-].
    destruct right; (split; [vm_compute; discriminate|]);
      (split; [vm_compute; discriminate|]);
      exists Sample.adjacent; (split; [reflexivity | vm_compute; discriminate]). }
  assert (H4 : generatedPositionFor Sample.identityConsumer
                 (indexToLineColumn Sample.adjacent 27 false) <> None) by discriminate.
  split; [exact H2|]. split; [exact H3|].
  exact (boundary_mode_monotone Sample.adjacent (JsString.split Sample.adjacent)
           Sample.identityConsumer 27 initialState initialState
           H1 H2 H3 H4 (reflexivity _) (reflexivity _)).
Defined.

(** C8, as stated, fails. At the offset 27 of [Sample.adjacent], where
    [a$] ends and [b$] starts: with the table of a minified text in which
    the two declarations have changed places the end of [a$] translates
    to 41 and the start of [b$] to 12; with the table of a minified text
    from which [b$] is gone, a table that keeps the reading order, the
    end of [a$] translates to 26 and the start of [b$] to [null]. *)
Lemma boundary_mode_counterexample :
  let swapped := JsString.split Sample.adjacentSwapped in
  let dropped := JsString.split Sample.adjacentDropped in
  (exists s1 s2,
      compressIndex Sample.adjacent swapped (Some Sample.swappingConsumer) 27 true
                    initialState = Ok (Some 41) s1 /\
      compressIndex Sample.adjacent swapped (Some Sample.swappingConsumer) 27 false
                    initialState = Ok (Some 12) s2 /\
      ~ toNumber (Some 41) <= toNumber (Some 12)) /\
  (orderPreserving Sample.droppingConsumer /\
   exists s1 s2,
     compressIndex Sample.adjacent dropped (Some Sample.droppingConsumer) 27 true
                   initialState = Ok (Some 26) s1 /\
     compressIndex Sample.adjacent dropped (Some Sample.droppingConsumer) 27 false
                   initialState = Ok None s2 /\
     ~ toNumber (Some 26) <= toNumber None).
Proof.
  cbn zeta. split.
  - do 2 eexists. split; [vm_compute; reflexivity|].
    split; [vm_compute; reflexivity|]. cbn [toNumber]. lia.
  - split.
    + intros p q p' q' Hle Hp Hq. unfold Sample.droppingConsumer in Hp, Hq.
      cbn [generatedPositionFor] in Hp, Hq.
      destruct ((27 <=? column p) && (column p <? 42)) eqn:Ep; [discriminate|].
      destruct ((27 <=? column q) && (column q <? 42)) eqn:Eq; [discriminate|].
      injection Hp as <-. injection Hq as <-.
      unfold positionLe in *. cbn [line column].
      apply andb_false_iff in Ep, Eq.
      destruct (Z.ltb_spec (column p) 27), (Z.ltb_spec (column q) 27); lia.
    + do 2 eexists. split; [vm_compute; reflexivity|].
      split; [vm_compute; reflexivity|]. cbn [toNumber]. lia.
Qed.

(** C3, as stated, fails. The declarator [a$=b$] lies on one line of the
    unminified text; the table sends its start to line 2 of the minified
    text (offset 13) and its end to line 1 (offset 5). The size is
    negative and the generated lines differ, and nothing is printed. *)
Lemma negative_range_counterexample :
  let start := indexToLineColumn Sample.alias 16 false in
  let end_ := indexToLineColumn Sample.alias 21 true in
  option_map line (generatedPositionFor Sample.crossingConsumer start) = Some 2 /\
  option_map line (generatedPositionFor Sample.crossingConsumer end_) = Some 1 /\
  exists s,
    compressRange Sample.alias Sample.aliasMinifiedSplat (Some Sample.crossingConsumer)
                  Sample.aliasInfo initialState = Ok None s /\
    indexCache s !! 16 = Some (Some 13) /\
    indexCache s !! 21 = Some (Some 5) /\
    reportDiagnostics (console s) = [].
Proof.
  cbn zeta. split; [vm_compute; reflexivity|]. split; [vm_compute; reflexivity|].
  eexists. split; [vm_compute; reflexivity|].
  repeat split; vm_compute; reflexivity.
Qed.

(** C4, as stated, fails. The start of [a$=1] has no mapping and its end
    maps to offset 19: the attributor returns the pair (null, 19), and the
    report has the entry [a$] with size 19. *)
Lemma unmapped_counterexample :
  generatedPositionFor Sample.startUnmappedConsumer
                       (indexToLineColumn Sample.oneVar 16 false) = None /\
  (exists s,
      compressRange Sample.oneVar (JsString.split Sample.oneVar)
                    (Some Sample.startUnmappedConsumer) Sample.oneVarInfo initialState
      = Ok (Some (None, Some 19)) s) /\
  (exists final,
      Sample.startUnmappedRun = Ok tt final /\
      reportEntries (console final) = [("a$", 19)]).
Proof.
  split; [vm_compute; reflexivity|]. split.
  - eexists. vm_compute. reflexivity.
  - eexists. split; vm_compute; reflexivity.
Qed.

(** ** The scenario `function greet(){}` *)

(** With the identity table and the text as its own minified text, a
    range inside the text is translated to the range that ends one
    character earlier. *)
Lemma identity_compressRange code name start end_ out :
  0 <= start < end_ ->
  end_ <= JsString.length code ->
  compressRange code (JsString.split code) (Some Sample.identityConsumer)
                (mkInfo name (start, end_)) (mkState ∅ out)
  = Ok (Some (Some start, Some (end_ - 1)))
       (mkState (<[ end_ := Some (end_ - 1) ]> (<[ start := Some start ]> ∅)) out).
Proof.
  intros Hstart Hend. unfold compressRange. cbn [info_range info_name fst snd].
  unfold bind at 1.
  rewrite compressIndex_miss by reflexivity.
  rewrite identity_translate_left by lia.
  unfold bind at 1.
  rewrite compressIndex_miss
    by (cbn [indexCache]; rewrite lookup_insert_ne by lia; reflexivity).
  rewrite identity_translate_right by lia.
  unfold rangeSize, toNumbers. cbn [fst snd toNumber].
  destruct (Z.ltb_spec (end_ - 1 - start) 0); [lia|]. reflexivity.
Qed.

(** C1, as the code has it. For a text that the parser reads as one
    enclosing initializer whose only statement is the declaration of
    [greet], with a range [start, end) inside the text, analysed against
    itself with the identity table: the extractor yields the one
    definition [greet]; the attributor yields the pair (start, end - 1),
    whose size is one less than the size of the range, as the end is
    translated from the character before it; the report has no entry, as
    [greet] has no '$', and a summary with the range sum 0 over the size
    of the program. *)
Theorem greet_scenario (parseScript : string -> Exception + Program) code parsed
        start end_ :
  parseScript code = inr parsed ->
  program_body parsed =
    [ExpressionStatement
       (CallExpression
          (FunctionExpression [FunctionDeclaration "greet" (start, end_)]))] ->
  0 <= start < end_ ->
  end_ <= JsString.length code ->
  let greet := mkInfo "greet" (start, end_) in
  let total := rangeSize (program_range parsed) in
  yieldElmJsDefinitionInfos parsed = [greet] /\
  (exists s,
      compressRange code (JsString.split code) (Some Sample.identityConsumer) greet
                    initialState = Ok (Some (Some start, Some (end_ - 1))) s) /\
  rangeSize (toNumbers (Some start, Some (end_ - 1))) = rangeSize (start, end_) - 1 /\
  (exists final,
      process parseScript code (Some code) (Some Sample.identityConsumer) = Ok tt final /\
      console final = [LogText "Parsing code"; LogText "Sorting"; LogSummary 0 total] /\
      reportEntries (console final) = []).
Proof.
  intros Hparse Hbody Hstart Hend. cbn zeta.
  assert (Hinfos : yieldElmJsDefinitionInfos parsed = [mkInfo "greet" (start, end_)]).
  { unfold yieldElmJsDefinitionInfos, yieldElmJsStatements. rewrite Hbody. reflexivity. }
  split; [exact Hinfos|]. split; [|split].
  - eexists. by apply (identity_compressRange code "greet" start end_ []).
  - unfold rangeSize, toNumbers. cbn [fst snd toNumber]. lia.
  - eexists. split; [|split].
    + unfold process.
      replace (compressedOrCode (Some code) code) with code by (by destruct code).
      erewrite bind_step by reflexivity.
      erewrite bind_step by reflexivity.
      erewrite bind_step by (rewrite Hparse; reflexivity).
      erewrite bind_step by (rewrite Hparse; reflexivity).
      rewrite Hinfos.
      erewrite bind_step.
      2:{ cbn [filterM]. erewrite bind_step.
          2:{ erewrite bind_step by (by apply identity_compressRange).
              reflexivity. }
          reflexivity. }
      reflexivity.
    + reflexivity.
    + reflexivity.
Qed.

(** An instance: the text `(function(){function greet(){}})()`, where the
    declaration has the range [12,30). *)
Lemma greet_scenario_witness :
  Sample.parseAs Sample.greetText Sample.greetProgram Sample.greetText
    = inr Sample.greetProgram /\
  30 <= JsString.length Sample.greetText /\
  yieldElmJsDefinitionInfos Sample.greetProgram = [mkInfo "greet" (12, 30)] /\
  (exists s,
      compressRange Sample.greetText (JsString.split Sample.greetText)
                    (Some Sample.identityConsumer) (mkInfo "greet" (12, 30)) initialState
      = Ok (Some (Some 12, Some (30 - 1))) s) /\
  rangeSize (toNumbers (Some 12, Some (30 - 1))) = rangeSize (12, 30) - 1 /\
  (exists final,
      process (Sample.parseAs Sample.greetText Sample.greetProgram) Sample.greetText
              (Some Sample.greetText) (Some Sample.identityConsumer) = Ok tt final /\
      console final = [LogText "Parsing code"; LogText "Sorting";
                       LogSummary 0 (rangeSize (program_range Sample.greetProgram))] /\
      reportEntries (console final) = []).
Proof.
  assert (H1 : Sample.parseAs Sample.greetText Sample.greetProgram Sample.greetText
               = inr Sample.greetProgram) by (vm_compute; reflexivity).
  assert (H2 : 30 <= JsString.length Sample.greetText) by (vm_compute; discriminate).
  split; [exact H1|]. split; [exact H2|].
  exact (greet_scenario _ _ _ 12 30 H1 (reflexivity _) ltac:(lia) H2).
Defined.

(** C1, as stated, fails. The text `function greet(){}` has 18
    characters; alone it is a declaration at top level, which the
    extractor does not yield. As the only statement of an enclosing
    initializer the declaration has the range [12,30): the attributed
    size is 17, not 18, and the report has no entry at all. *)
Lemma greet_counterexample :
  (JsString.length Sample.greetAlone = 18 /\
   yieldElmJsDefinitionInfos Sample.greetAloneProgram = [] /\
   exists final,
     Sample.greetAloneRun = Ok tt final /\
     reportEntries (console final) = [] /\
     map render (console final) =
       [Some "Parsing code"; Some "Sorting";
        Some "Range sum: 0 total: 18, analized 0.000%"]) /\
  (yieldElmJsDefinitionInfos Sample.greetProgram = [mkInfo "greet" (12, 30)] /\
   (exists s,
       compressRange Sample.greetText (JsString.split Sample.greetText)
                     (Some Sample.identityConsumer) (mkInfo "greet" (12, 30)) initialState
       = Ok (Some (Some 12, Some 29)) s) /\
   rangeSize (toNumbers (Some 12, Some 29)) = 17 /\
   rangeSize (12, 30) = 18 /\
   JsString.indexOf "greet" "$"%char = -1 /\
   exists final,
     Sample.greetRun = Ok tt final /\
     reportEntries (console final) = [] /\
     map render (console final) =
       [Some "Parsing code"; Some "Sorting";
        Some "Range sum: 0 total: 34, analized 0.000%"]).
Proof.
  split.
  - split; [reflexivity|]. split; [reflexivity|].
    eexists. split; [vm_compute; reflexivity|]. split; vm_compute; reflexivity.
  - split; [reflexivity|]. split; [eexists; vm_compute; reflexivity|].
    split; [reflexivity|]. split; [reflexivity|]. split; [reflexivity|].
    eexists. split; [vm_compute; reflexivity|]. split; vm_compute; reflexivity.
Qed.

(** ** The earlier version *)

(** There a negative range ends the run. *)
Lemma earlier_negative_range_throws code compressedSplat c info s start' s1 end' s2 :
  Earlier.compressIndex code compressedSplat (Some c) (fst (info_range info)) true s
    = Ok start' s1 ->
  Earlier.compressIndex code compressedSplat (Some c) (snd (info_range info)) false s1
    = Ok end' s2 ->
  toNumber end' - toNumber start' < 0 ->
  exists d,
    Earlier.compressRange code compressedSplat (Some c) info s
    = Throw InvalidNegativeRange (mkState (indexCache s2) (console s2 ++ [LogDiagnostic d])).
Proof.
  intros H1 H2 Hneg. unfold Earlier.compressRange.
  rewrite (bind_step _ _ _ _ _ H1), (bind_step _ _ _ _ _ H2).
  unfold rangeSize, toNumbers. cbn [fst snd].
  destruct (Z.ltb_spec (toNumber end' - toNumber start') 0); [|lia].
  eexists. reflexivity.
Qed.

(** There the translation does not look at the boundary, so that the
    cache, keyed by the offset, holds what a fresh translation gives. *)
Lemma earlier_compressIndex_boundary code compressedSplat consumer index left left' :
  Earlier.compressIndex code compressedSplat consumer index left
  = Earlier.compressIndex code compressedSplat consumer index left'.
Proof. reflexivity. Qed.

(** There the declaration of [greet] in an enclosing initializer gives
    one entry, with the size 18 of its range: the end is translated from
    its own offset and no name is filtered out. The initializer around
    it counts in the total. *)
Lemma earlier_greet_run :
  exists final,
    Earlier.process (Sample.parseAs Sample.greetText Sample.greetProgram)
                    Sample.greetText (Some Sample.greetText)
                    (Some Sample.identityConsumer) = Ok tt final /\
    reportEntries (console final) = [("greet", 18)] /\
    map render (console final) =
      [Some "Parsing code"; Some "Sorting"; Some "52.941%: greet";
       Some "Range sum: 18 total: 34, analized 52.941%"].
Proof.
  eexists. split; [vm_compute; reflexivity|]. split; vm_compute; reflexivity.
Qed.

(** ** Without a consumer *)

(** Both versions call [consumer.computeColumnSpans()] first. *)
Lemma process_without_consumer parseScript code compressedCode :
  process parseScript code compressedCode None
  = Throw TypeError (mkState ∅ [LogText "Parsing code"]).
Proof. reflexivity. Qed.

Lemma earlier_process_without_consumer parseScript code compressedCode :
  Earlier.process parseScript code compressedCode None
  = Throw TypeError (mkState ∅ [LogText "Parsing code"]).
Proof. reflexivity. Qed.

(** Past [computeColumnSpans], the closures do handle a missing consumer:
    a range translates to itself. *)
Lemma compressRange_without_consumer code compressedSplat info s :
  fst (info_range info) <= snd (info_range info) ->
  compressRange code compressedSplat None info s
  = Ok (Some (Some (fst (info_range info)), Some (snd (info_range info)))) s.
Proof.
  intros Hle. unfold compressRange, compressIndex, bind, ret, rangeSize, toNumbers.
  cbn [fst snd toNumber].
  destruct (Z.ltb_spec (snd (info_range info) - fst (info_range info)) 0); [lia|].
  reflexivity.
Qed.

(** * Further properties *)

(** ** Positions in the text *)

Lemma split_app a b :
  JsString.split (a ++ b)%string
  = removelast (JsString.split a)
    ++ (List.last (JsString.split a) EmptyString ++ List.hd EmptyString (JsString.split b))%string
       :: List.tl (JsString.split b).
Proof.
  induction a as [|c a IH].
  - change (EmptyString ++ b)%string with b.
    change (JsString.split EmptyString) with [EmptyString].
    destruct (JsString.split b) eqn:E; [by apply split_nonempty in E | reflexivity].
  - change (String c a ++ b)%string with (String c (a ++ b)%string).
    destruct (Ascii.eqb c JsString.newline) eqn:E.
    + rewrite !(split_cons_newline _ _ E), IH.
      destruct (JsString.split a) as [|first others] eqn:Ea;
        [by apply split_nonempty in Ea | reflexivity].
    + destruct (split_cons_other c a E) as (first & others & Ea & ->).
      destruct (split_cons_other c (a ++ b)%string E) as (first' & others' & Eab & ->).
      rewrite IH, Ea in Eab. destruct others as [|second others].
      * injection Eab as <- <-. reflexivity.
      * change (removelast (first :: second :: others))
          with (first :: removelast (second :: others)) in Eab.
        injection Eab as <- <-. reflexivity.
Qed.

Lemma slice0_length code index :
  JsString.length (JsString.slice0 code index)
  = if index <? 0 then Z.max (JsString.length code + index) 0
    else Z.min index (JsString.length code).
Proof.
  unfold JsString.slice0.
  set (to := if index <? 0 then _ else _).
  assert (Hto : 0 <= to <= JsString.length code).
  { unfold to, JsString.length. destruct (index <? 0) eqn:E; lia. }
  destruct (substring_prefix (Z.to_nat to) code) as (rest & _ & Hlen);
    [unfold JsString.length in Hto; lia|].
  unfold JsString.length at 1. rewrite Hlen. lia.
Qed.

Lemma slice0_prefix code index :
  exists rest, code = (JsString.slice0 code index ++ rest)%string.
Proof.
  unfold JsString.slice0.
  set (to := if index <? 0 then _ else _).
  assert (Hto : 0 <= to <= JsString.length code).
  { unfold to, JsString.length. destruct (index <? 0) eqn:E; lia. }
  destruct (substring_prefix (Z.to_nat to) code) as (rest & Hcode & _);
    [unfold JsString.length in Hto; lia|].
  by exists rest.
Qed.

Lemma removelast_length {A} (l : list A) :
  l <> [] -> List.length (removelast l) = (List.length l - 1)%nat.
Proof.
  induction l as [|x l IH]; [congruence|]. intros _.
  destruct l as [|y l]; [reflexivity|].
  change (removelast (x :: y :: l)) with (x :: removelast (y :: l)).
  cbn [List.length] in *. rewrite IH by discriminate. lia.
Qed.

(** X1. The position that [indexToLineColumn] computes lies in the text:
    its line is one of the lines of [code] (counted from 1) and its
    column is at most the length of that line, whatever the offset and the
    boundary. So every lookup of the consumer gets a line from 1 on and a
    column from 0 on. *)
Theorem indexToLineColumn_in_text code index right :
  let p := indexToLineColumn code index right in
  1 <= line p /\ 0 <= column p /\
  exists l,
    JsString.split code !! Z.to_nat (line p - 1) = Some l /\
    column p <= JsString.length l.
Proof.
  cbn zeta. unfold indexToLineColumn. cbn [line column].
  set (target := if right then index - 1 else index).
  destruct (slice0_prefix code target) as (rest & Hcode).
  set (before := JsString.slice0 code target) in *.
  pose proof (split_nonempty before) as Hne.
  pose proof (removelast_length _ Hne) as Hlen.
  assert (Hpos : (1 <= List.length (JsString.split before))%nat).
  { destruct (JsString.split before); [congruence | simpl; lia]. }
  split; [lia|]. split; [unfold JsString.length; lia|].
  exists (List.last (JsString.split before) EmptyString
          ++ List.hd EmptyString (JsString.split rest))%string.
  split.
  - rewrite Hcode at 1. rewrite split_app.
    apply list_lookup_middle. lia.
  - unfold JsString.length. rewrite string_length_app. lia.
Qed.

(** X2. Line and column lead back to the offset: adding up, as the loop
    of [compressIndex] does, the lines of the text before the line of the
    position, with one line break each, and the column gives the offset
    that was looked up, i.e. the offset (less one for a right boundary)
    clamped to the text as [slice] clamps it. *)
Theorem position_offset_round_trip (code : string) (index : Z) (right : bool) :
  let target := if right then index - 1 else index in
  generatedOffset (JsString.split code) (Some (indexToLineColumn code index right))
  = inr (Some (if target <? 0 then Z.max (JsString.length code + target) 0
               else Z.min target (JsString.length code))).
Proof.
  cbn zeta. rewrite <- slice0_length.
  unfold indexToLineColumn, generatedOffset. cbn [line column].
  set (target := if right then index - 1 else index).
  destruct (slice0_prefix code target) as (rest & Hcode).
  set (before := JsString.slice0 code target) in *.
  pose proof (split_prefix before rest) as Hprefix. rewrite <- Hcode in Hprefix.
  pose proof (split_lengths before) as Hlengths.
  pose proof (split_nonempty before) as Hne.
  assert (Hpos : (1 <= List.length (JsString.split before))%nat).
  { destruct (JsString.split before); [congruence | simpl; lia]. }
  replace (Z.to_nat (Z.of_nat (List.length (JsString.split before)) - 1))
    with (List.length (JsString.split before) - 1)%nat by lia.
  change 1 with (Z.of_nat 0 + 1).
  rewrite addLineLengths_firstn.
  - rewrite drop_0, Hprefix. do 2 f_equal. lia.
  - assert (Hlen' : List.length (firstn (List.length (JsString.split before) - 1)
                                        (JsString.split code))
                    = (List.length (JsString.split before) - 1)%nat).
    { rewrite Hprefix. by apply removelast_length. }
    rewrite List.length_firstn in Hlen'. lia.
Qed.

(** ** The loop over the minified lines *)

Lemma addLineLengths_beyond compressedSplat count k result :
  (List.length compressedSplat < k + count)%nat ->
  (0 < count)%nat ->
  addLineLengths compressedSplat count (Z.of_nat k + 1) result = inl TypeError.
Proof.
  revert k result. induction count as [|count IH]; intros k result Hk Hcount; [lia|].
  cbn [addLineLengths].
  replace (Z.to_nat (Z.of_nat k + 1 - 1)) with k by lia.
  destruct (compressedSplat !! k) as [l|] eqn:El; [|reflexivity].
  apply lookup_lt_Some in El.
  replace (Z.of_nat k + 1 + 1) with (Z.of_nat (S k) + 1) by lia.
  apply IH; lia.
Qed.

(** X3. The offset of a generated position is its column plus the lengths
    of the minified lines before its line, each with its line break; the
    computation throws exactly when the position is more than one line
    past the last minified line. A position on line 1 or before needs no
    minified line at all. *)
Theorem generatedOffset_closed_form compressedSplat p :
  generatedOffset compressedSplat (Some p)
  = if (Z.to_nat (line p - 1) <=? List.length compressedSplat)%nat
    then inr (Some (column p
                    + linesLength (firstn (Z.to_nat (line p - 1)) compressedSplat)))
    else inl TypeError.
Proof.
  unfold generatedOffset. change 1 with (Z.of_nat 0 + 1) at 2.
  destruct (Nat.leb_spec (Z.to_nat (line p - 1)) (List.length compressedSplat)) as [Hle|Hgt].
  - rewrite addLineLengths_firstn by lia. by rewrite drop_0.
  - rewrite addLineLengths_beyond by lia. reflexivity.
Qed.

(** ** The cache *)

Lemma bind_Throw {A B} (m : M A) (k : A -> M B) s e s' :
  bind m k s = Throw e s' ->
  m s = Throw e s' \/ exists a s1, m s = Ok a s1 /\ k a s1 = Throw e s'.
Proof.
  unfold bind. destruct (m s) as [a s1|e1 s1]; [eauto|].
  intros [= <- <-]. by left.
Qed.

Lemma addLineLengths_TypeError compressedSplat count lineNumber result e :
  addLineLengths compressedSplat count lineNumber result = inl e -> e = TypeError.
Proof.
  revert lineNumber result. induction count as [|count IH]; intros lineNumber result;
    [discriminate|].
  cbn [addLineLengths]. destruct (compressedSplat !! _); [apply IH | congruence].
Qed.

Lemma translate_TypeError code compressedSplat c index right e :
  Contract.translate code compressedSplat c index right = inl e -> e = TypeError.
Proof.
  unfold Contract.translate, generatedOffset.
  destruct (generatedPositionFor c _) as [p|]; [|discriminate].
  destruct (addLineLengths _ _ _ _) as [e'|z] eqn:E; [|discriminate].
  intros [= <-]. by apply addLineLengths_TypeError in E.
Qed.

Section CacheFacts.

Variable code : string.
Variable compressedSplat : list string.
Variable c : SourceMapConsumer.

(** A query that throws leaves the state as it was, and throws a
    TypeError. *)
Lemma compressIndex_Throw index right s e s' :
  compressIndex code compressedSplat (Some c) index right s = Throw e s' ->
  e = TypeError /\ s' = s.
Proof.
  destruct (indexCache s !! index) as [w|] eqn:E.
  - by rewrite (compressIndex_hit _ _ _ _ _ _ _ E).
  - rewrite (compressIndex_miss _ _ _ _ _ _ E).
    destruct (Contract.translate _ _ _ _ _) as [e'|w] eqn:Et; [|discriminate].
    intros [= <- <-]. split; [|reflexivity]. by apply translate_TypeError in Et.
Qed.

Lemma compressRange_Throw info s e s' :
  compressRange code compressedSplat (Some c) info s = Throw e s' ->
  e = TypeError /\ indexCache s ⊆ indexCache s' /\ console s' = console s.
Proof.
  unfold compressRange. intros H.
  apply bind_Throw in H as [H|(a & s1 & Ha & H)].
  { apply compressIndex_Throw in H as [-> ->]. auto. }
  apply compressIndex_Ok in Ha as (_ & Hsub1 & Hc1).
  apply bind_Throw in H as [H|(b & s2 & Hb & H)].
  { apply compressIndex_Throw in H as [-> ->]. auto. }
  exfalso. destruct (_ <? _); [|discriminate].
  destruct (_ =? _); [discriminate|].
  unfold bind, consoleLog, ret in H. discriminate.
Qed.

End CacheFacts.

(** X4. The cache only grows and the console is only added to: a call of
    [compressRange], with or without a consumer, whether it returns or
    throws, leaves every cache entry it found as it was and keeps what was
    printed before. *)
Theorem compressRange_keeps_cache code compressedSplat consumer info s :
  let s' := stateOf (compressRange code compressedSplat consumer info s) in
  indexCache s ⊆ indexCache s' /\
  exists printed, console s' = console s ++ printed.
Proof.
  cbn zeta. destruct consumer as [c|].
  - destruct (compressRange _ _ _ _ _) as [r s'|e s'] eqn:E; cbn [stateOf].
    + apply compressRange_Ok in E as (Hsub & _ & _ & _ & ds & Hds). eauto.
    + apply compressRange_Throw in E as (_ & Hsub & Hc).
      split; [assumption|]. exists []. by rewrite app_nil_r.
  - unfold compressRange, compressIndex, bind, ret.
    destruct (_ <? _); [destruct (_ =? _)|]; cbn [stateOf throw];
      (split; [reflexivity | exists []; by rewrite app_nil_r]).
Qed.

(** ** The filter of [process], step by step *)

Section FilterFacts.

Variable code : string.
Variable compressedSplat : list string.
Variable c : SourceMapConsumer.

Local Abbreviation cRange := (compressRange code compressedSplat (Some c)).
Local Abbreviation keep :=
  (fun info : DefinitionInfo =>
     range <- cRange info ;;
     ret ((0 <=? JsString.indexOf (info_name info) "$"%char)
          && bool_decide (range <> None))).

(** What holds before the filter and is kept by every [compressRange] of
    a definition of the list holds after the filter. *)
Lemma filterM_fold (Inv : State -> Prop) infos :
  (forall info s r s', In info infos -> Inv s -> cRange info s = Ok r s' -> Inv s') ->
  forall s kept s', Inv s -> filterM keep infos s = Ok kept s' -> Inv s'.
Proof.
  induction infos as [|info infos IH]; intros Hstep s kept s' Hinv H.
  - by injection H as <- <-.
  - cbn [filterM] in H.
    apply bind_Ok in H as (b & s1 & Hkeep & H).
    apply bind_Ok in Hkeep as (range & s0 & Hrange & Hkeep).
    injection Hkeep as <- <-.
    apply bind_Ok in H as (rest & s2 & Hrest & H).
    injection H as <- <-.
    eapply IH; [| |exact Hrest].
    + intros. eapply Hstep; eauto. by right.
    + eapply Hstep; eauto. by left.
Qed.

Lemma filterM_Throw infos s e s' :
  filterM keep infos s = Throw e s' -> e = TypeError.
Proof.
  revert s. induction infos as [|info infos IH]; intros s H; [discriminate|].
  cbn [filterM] in H.
  apply bind_Throw in H as [H|(b & s1 & Hkeep & H)].
  - apply bind_Throw in H as [H|(range & s0 & _ & H)]; [|discriminate].
    by apply compressRange_Throw in H as (-> & _).
  - apply bind_Throw in H as [H|(rest & s2 & _ & H)]; [|discriminate].
    by apply IH in H.
Qed.

Lemma compressIndex_total index right s :
  linesInRange code c compressedSplat ->
  exists v s', compressIndex code compressedSplat (Some c) index right s = Ok v s'.
Proof.
  intros Hlines. destruct (indexCache s !! index) as [w|] eqn:E.
  - rewrite (compressIndex_hit _ _ _ _ _ _ _ E). eauto.
  - rewrite (compressIndex_miss _ _ _ _ _ _ E).
    unfold Contract.translate, generatedOffset.
    destruct (generatedPositionFor c _) as [q|] eqn:Eq; [|eauto].
    change 1 with (Z.of_nat 0 + 1) at 2.
    rewrite addLineLengths_firstn by (apply Hlines in Eq; lia). eauto.
Qed.

Lemma compressRange_total info s :
  linesInRange code c compressedSplat ->
  exists r s', cRange info s = Ok r s'.
Proof.
  intros Hlines. unfold compressRange.
  destruct (compressIndex_total (fst (info_range info)) false s Hlines) as (a & s1 & Ha).
  destruct (compressIndex_total (snd (info_range info)) true s1 Hlines) as (b & s2 & Hb).
  rewrite (bind_step _ _ _ _ _ Ha), (bind_step _ _ _ _ _ Hb).
  destruct (_ <? _); [destruct (_ =? _)|]; unfold bind, consoleLog, ret; eauto.
Qed.

Lemma filterM_total infos s :
  linesInRange code c compressedSplat ->
  exists kept s', filterM keep infos s = Ok kept s'.
Proof.
  intros Hlines. revert s. induction infos as [|info infos IH]; intros s.
  - cbn. unfold ret. eauto.
  - destruct (compressRange_total info s Hlines) as (r & s0 & Hr).
    destruct (IH s0) as (rest & s1 & Hrest).
    cbn [filterM]. unfold bind at 1. unfold bind at 1. rewrite Hr.
    cbn [ret]. unfold bind at 1. rewrite Hrest. unfold ret. eauto.
Qed.

Lemma anomalous_mono cache cache' info :
  covered cache info -> cache ⊆ cache' ->
  anomalous code cache' info = anomalous code cache info.
Proof.
  intros Hc Hsub. unfold anomalous. by rewrite (attributedSize_mono _ _ _ Hc Hsub).
Qed.

Lemma diagnosticFor_mono cache cache' info :
  covered cache info -> cache ⊆ cache' ->
  diagnosticFor code c cache' info = diagnosticFor code c cache info.
Proof.
  intros [[a Ha] [b Hb]] Hsub. unfold diagnosticFor. cbn zeta.
  assert (Ha' : cache' !! fst (info_range info) = Some a) by (eapply lookup_weaken; eauto).
  assert (Hb' : cache' !! snd (info_range info) = Some b) by (eapply lookup_weaken; eauto).
  by rewrite Ha, Hb, Ha', Hb'.
Qed.

(** What one [compressRange] prints. *)
Lemma compressRange_console info s r s' :
  cRange info s = Ok r s' ->
  console s' = console s ++
    (if anomalous code (indexCache s') info
     then [LogDiagnostic (diagnosticFor code c (indexCache s') info)] else []).
Proof.
  unfold compressRange. intros H.
  apply bind_Ok in H as (a & s1 & Ha & H).
  apply bind_Ok in H as (b & s2 & Hb & H).
  apply compressIndex_Ok in Ha as (Ha & Hsub1 & Hc1).
  apply compressIndex_Ok in Hb as (Hb & Hsub2 & Hc2).
  assert (Ha2 : indexCache s2 !! fst (info_range info) = Some a)
    by (eapply lookup_weaken; eauto).
  assert (Hcache : indexCache s' = indexCache s2).
  { destruct (_ <? _); [destruct (_ =? _)|]; by injection H as <- <-. }
  rewrite Hcache. unfold anomalous, diagnosticFor, attributedSize, cachedNumber.
  rewrite Ha2, Hb. cbn [default from_option id]. cbn zeta.
  unfold rangeSize, toNumbers in H. cbn [fst snd] in H.
  destruct (toNumber b - toNumber a <? 0).
  - destruct (_ =? _); cbn [andb negb].
    + injection H as _ <-. by rewrite app_nil_r, Hc2, Hc1.
    + apply bind_Ok in H as ([] & s3 & Hlog & H). injection Hlog as <-.
      injection H as _ <-. cbn [console]. by rewrite Hc2, Hc1.
  - injection H as _ <-. cbn [andb]. by rewrite app_nil_r, Hc2, Hc1.
Qed.

(** The filter prints one diagnostic for each anomalous definition of the
    list, in the order of the list. *)
Lemma filterM_diagnostics infos s kept s' :
  filterM keep infos s = Ok kept s' ->
  console s' = console s ++
    map LogDiagnostic
        (map (diagnosticFor code c (indexCache s'))
             (List.filter (anomalous code (indexCache s')) infos)).
Proof.
  revert s kept s'. induction infos as [|info infos IH]; intros s kept s' H.
  - injection H as <- <-. by rewrite app_nil_r.
  - cbn [filterM] in H.
    apply bind_Ok in H as (b & s1 & Hkeep & H).
    apply bind_Ok in Hkeep as (range & s0 & Hrange & Hkeep).
    injection Hkeep as <- <-.
    apply bind_Ok in H as (rest & s2 & Hrest & H).
    injection H as <- <-.
    pose proof (compressRange_console _ _ _ _ Hrange) as Hconsole.
    apply compressRange_Ok in Hrange as (_ & Hcov & _).
    pose proof (filterM_retained _ _ _ _ _ _ _ Hrest) as (Hsub & _).
    apply IH in Hrest. rewrite Hrest, Hconsole. cbn [List.filter].
    rewrite (anomalous_mono _ _ _ Hcov Hsub).
    destruct (anomalous code (indexCache s0) info); cbn [map].
    + rewrite (diagnosticFor_mono _ _ _ Hcov Hsub). by rewrite <- app_assoc.
    + by rewrite app_nil_r.
Qed.

End FilterFacts.

(** ** The stages of a run *)

Section RunFacts.

Variable parseScript : string -> Exception + Program.

(** A run that got past the parser is its filter followed by stages that
    leave the cache alone and print the sorted entries and the summary. *)
Lemma process_after_filter code compressedCode c parsed parsedCompressed kept s5 :
  parseScript code = inr parsed ->
  parseScript (compressedOrCode compressedCode code) = inr parsedCompressed ->
  filterM (fun info =>
             range <- compressRange code
                        (JsString.split (compressedOrCode compressedCode code))
                        (Some c) info ;;
             ret ((0 <=? JsString.indexOf (info_name info) "$"%char)
                  && bool_decide (range <> None)))
          (yieldElmJsDefinitionInfos parsed)
          (mkState ∅ [LogText "Parsing code"]) = Ok kept s5 ->
  let cache := indexCache s5 in
  let total := rangeSize (program_range parsedCompressed) in
  let sorted := sortBy (bySizeDescending cache) kept in
  process parseScript code compressedCode (Some c)
  = Ok tt (mkState cache
             (console s5 ++ LogText "Sorting" ::
              map (fun item => LogEntry (attributedSize cache item) total (info_name item))
                  sorted ++
              [LogSummary (fold_left Z.add (map (attributedSize cache) sorted) 0) total])).
Proof.
  intros Hparsed Hcompressed Hfilter. cbn zeta.
  pose proof (filterM_retained _ _ _ _ _ _ _ Hfilter) as (_ & Hcov & Hkept & _).
  assert (Hsettled : Forall (settled (indexCache s5)) kept).
  { rewrite Hkept. apply List.Forall_forall. intros info Hin.
    apply List.filter_In in Hin as [Hin Hret].
    rewrite List.Forall_forall in Hcov. split; [by apply Hcov|].
    unfold retained in Hret. apply andb_true_iff in Hret as [_ Hret]. lia. }
  pose proof (sortBy_Forall _ (bySizeDescending (indexCache s5)) _ Hsettled) as Hsorted.
  unfold process.
  erewrite bind_step by reflexivity.
  erewrite bind_step by reflexivity.
  erewrite bind_step by (rewrite Hparsed; reflexivity).
  erewrite bind_step by (rewrite Hcompressed; reflexivity).
  erewrite bind_step by exact Hfilter.
  erewrite bind_step by reflexivity.
  erewrite bind_step by (apply sortM_settled; exact Hsettled).
  erewrite bind_step by (apply forEachM_settled; exact Hsorted).
  erewrite bind_step by (apply mapM_settled; exact Hsorted).
  unfold consoleLog. cbn [indexCache console]. by rewrite <- !app_assoc.
Qed.

(** Conversely, a run that ends normally went through these stages. *)
Lemma process_filter_stage code compressedCode c final :
  process parseScript code compressedCode (Some c) = Ok tt final ->
  exists parsed parsedCompressed kept s5,
    parseScript code = inr parsed /\
    parseScript (compressedOrCode compressedCode code) = inr parsedCompressed /\
    filterM (fun info =>
               range <- compressRange code
                          (JsString.split (compressedOrCode compressedCode code))
                          (Some c) info ;;
               ret ((0 <=? JsString.indexOf (info_name info) "$"%char)
                    && bool_decide (range <> None)))
            (yieldElmJsDefinitionInfos parsed)
            (mkState ∅ [LogText "Parsing code"]) = Ok kept s5 /\
    indexCache final = indexCache s5.
Proof.
  intros H. pose proof H as Hfinal. unfold process in H.
  apply bind_Ok in H as ([] & s1 & Hlog & H). injection Hlog as <-.
  apply bind_Ok in H as ([] & s2 & Hspans & H). injection Hspans as <-.
  apply bind_Ok in H as (parsed & s3 & Hparsed & H).
  apply liftResult_Ok in Hparsed as [Hparsed ->].
  apply bind_Ok in H as (parsedCompressed & s4 & Hcompressed & H).
  apply liftResult_Ok in Hcompressed as [Hcompressed ->].
  apply bind_Ok in H as (kept & s5 & Hfilter & _).
  exists parsed, parsedCompressed, kept, s5.
  repeat split; try assumption.
  rewrite (process_after_filter _ _ _ _ _ _ _ Hparsed Hcompressed Hfilter) in Hfinal.
  by injection Hfinal as <-.
Qed.

End RunFacts.

(** ** Runs: what is in the cache *)

Section CacheOfARun.

Variable code : string.
Variable compressedSplat : list string.
Variable c : SourceMapConsumer.

Lemma compressRange_steps info s r s' :
  compressRange code compressedSplat (Some c) info s = Ok r s' ->
  exists a s1 b s2,
    compressIndex code compressedSplat (Some c) (fst (info_range info)) false s = Ok a s1 /\
    compressIndex code compressedSplat (Some c) (snd (info_range info)) true s1 = Ok b s2 /\
    indexCache s' = indexCache s2.
Proof.
  unfold compressRange. intros H.
  apply bind_Ok in H as (a & s1 & Ha & H).
  apply bind_Ok in H as (b & s2 & Hb & H).
  exists a, s1, b, s2. repeat split; try assumption.
  destruct (_ <? _); [destruct (_ =? _)|]; by injection H as <- <-.
Qed.

(** What a query adds to the cache, if anything, is the translation for
    the boundary of the query. *)
Lemma compressIndex_entry index right s v s' :
  compressIndex code compressedSplat (Some c) index right s = Ok v s' ->
  (indexCache s !! index = Some v /\ s' = s) \/
  (indexCache s !! index = None /\
   Contract.translate code compressedSplat c index right = inr v /\
   indexCache s' = <[index := v]> (indexCache s)).
Proof.
  destruct (indexCache s !! index) as [w|] eqn:E.
  - rewrite (compressIndex_hit _ _ _ _ _ _ _ E). intros [= <- <-]. by left.
  - rewrite (compressIndex_miss _ _ _ _ _ _ E).
    destruct (Contract.translate _ _ _ _ _) as [e|w]; [discriminate|].
    intros [= <- <-]. right. auto.
Qed.

Lemma compressIndex_translationsOnly index right s v s' :
  translationsOnly code compressedSplat c (indexCache s) ->
  compressIndex code compressedSplat (Some c) index right s = Ok v s' ->
  translationsOnly code compressedSplat c (indexCache s').
Proof.
  intros Hinv H.
  apply compressIndex_entry in H as [[_ ->]|(_ & Ht & ->)]; [assumption|].
  intros j w Hj. destruct (decide (index = j)) as [<-|Hne].
  - rewrite lookup_insert_eq in Hj. injection Hj as <-. destruct right; auto.
  - rewrite lookup_insert_ne in Hj by assumption. by apply Hinv.
Qed.

Lemma compressRange_translationsOnly info s r s' :
  translationsOnly code compressedSplat c (indexCache s) ->
  compressRange code compressedSplat (Some c) info s = Ok r s' ->
  translationsOnly code compressedSplat c (indexCache s').
Proof.
  intros Hinv H. apply compressRange_steps in H as (a & s1 & b & s2 & Ha & Hb & ->).
  eapply compressIndex_translationsOnly; [|exact Hb].
  eapply compressIndex_translationsOnly; [|exact Ha]. assumption.
Qed.

Lemma compressRange_exactFor infos info s r s' :
  (forall a b, In a infos -> In b infos -> fst (info_range a) <> snd (info_range b)) ->
  In info infos ->
  exactFor code compressedSplat c infos (indexCache s) ->
  compressRange code compressedSplat (Some c) info s = Ok r s' ->
  exactFor code compressedSplat c infos (indexCache s').
Proof.
  intros Hapart Hin Hinv H.
  apply compressRange_steps in H as (a & s1 & b & s2 & Ha & Hb & ->).
  assert (Hinv1 : exactFor code compressedSplat c infos (indexCache s1)).
  { apply compressIndex_entry in Ha as [[_ ->]|(_ & Ht & ->)]; [assumption|].
    intros j w Hj. destruct (decide (fst (info_range info) = j)) as [<-|Hne].
    - rewrite lookup_insert_eq in Hj. injection Hj as <-. split.
      + intros _ _ _. exact Ht.
      + intros other Hother Heq. exfalso. by apply (Hapart info other).
    - rewrite lookup_insert_ne in Hj by assumption. by apply Hinv. }
  apply compressIndex_entry in Hb as [[_ ->]|(_ & Ht & ->)]; [assumption|].
  intros j w Hj. destruct (decide (snd (info_range info) = j)) as [<-|Hne].
  - rewrite lookup_insert_eq in Hj. injection Hj as <-. split.
    + intros other Hother Heq. exfalso. by apply (Hapart other info).
    + intros _ _ _. exact Ht.
  - rewrite lookup_insert_ne in Hj by assumption. by apply Hinv1.
Qed.

End CacheOfARun.

(** ** Runs: outcome, console and cache *)

Section RunProperties.

Variable parseScript : string -> Exception + Program.

(** X5. A run with a consumer ends normally whenever both texts parse
    and the table sends no position of the text more than one line past
    the last line of the minified text: negative ranges, positions without
    mapping and definitions without a '$' do not stop it. *)
Theorem process_ends_normally code compressedCode c parsed parsedCompressed :
  parseScript code = inr parsed ->
  parseScript (compressedOrCode compressedCode code) = inr parsedCompressed ->
  linesInRange code c (JsString.split (compressedOrCode compressedCode code)) ->
  exists final, process parseScript code compressedCode (Some c) = Ok tt final.
Proof.
  intros Hparsed Hcompressed Hlines.
  destruct (filterM_total code _ c (yieldElmJsDefinitionInfos parsed)
                          (mkState ∅ [LogText "Parsing code"]) Hlines)
    as (kept & s5 & Hfilter).
  eexists. exact (process_after_filter _ _ _ _ _ _ _ _ Hparsed Hcompressed Hfilter).
Qed.

(** X6. A run throws only what the parser throws, for either text, or a
    TypeError; and a TypeError only without a consumer or with a table
    that sends some position of the text more than one line past the
    minified text. *)
Theorem process_failures code compressedCode consumer e s :
  process parseScript code compressedCode consumer = Throw e s ->
  parseScript code = inl e \/
  parseScript (compressedOrCode compressedCode code) = inl e \/
  (e = TypeError /\
   (consumer = None \/
    exists c, consumer = Some c /\
              ~ linesInRange code c (JsString.split (compressedOrCode compressedCode code)))).
Proof.
  intros H. pose proof H as Hthrow. unfold process in H.
  apply bind_Throw in H as [H|([] & s1 & Hlog & H)]; [discriminate|].
  injection Hlog as <-.
  apply bind_Throw in H as [H|([] & s2 & Hspans & H)].
  { destruct consumer; [discriminate|]. injection H as <- _. auto. }
  destruct consumer as [c|]; [|discriminate]. injection Hspans as <-.
  apply bind_Throw in H as [H|(parsed & s3 & Hparsed & H)].
  { destruct (parseScript code) as [e'|]; [|discriminate]. injection H as <- _. auto. }
  apply liftResult_Ok in Hparsed as [Hparsed ->].
  apply bind_Throw in H as [H|(parsedCompressed & s4 & Hcompressed & H)].
  { destruct (parseScript (compressedOrCode compressedCode code)) as [e'|];
      [|discriminate]. injection H as <- _. auto. }
  apply liftResult_Ok in Hcompressed as [Hcompressed ->].
  right. right.
  assert (Hnot : ~ linesInRange code c (JsString.split (compressedOrCode compressedCode code))).
  { intros Hlines.
    destruct (filterM_total code _ c (yieldElmJsDefinitionInfos parsed)
                            (mkState ∅ [LogText "Parsing code"]) Hlines)
      as (kept & s5 & Hfilter).
    rewrite (process_after_filter _ _ _ _ _ _ _ _ Hparsed Hcompressed Hfilter) in Hthrow.
    discriminate. }
  apply bind_Throw in H as [H|(kept & s5 & Hfilter & H)].
  - apply filterM_Throw in H as ->. eauto.
  - exfalso.
    rewrite (process_after_filter _ _ _ _ _ _ _ _ Hparsed Hcompressed Hfilter) in Hthrow.
    discriminate.
Qed.

(** X7. The console of a run that ends normally, line by line: 'Parsing
    code'; one diagnostic for each extracted definition, with or without
    a '$', whose size is negative and whose endpoints lie on two lines of
    the unminified text, in the order of extraction; 'Sorting'; the
    entries of the retained definitions in sorted order, each with the
    size of the minified program as its total; the summary. *)
Theorem console_of_a_run code compressedCode c final :
  process parseScript code compressedCode (Some c) = Ok tt final ->
  exists parsed parsedCompressed,
    parseScript code = inr parsed /\
    parseScript (compressedOrCode compressedCode code) = inr parsedCompressed /\
    let cache := indexCache final in
    let infos := yieldElmJsDefinitionInfos parsed in
    let total := rangeSize (program_range parsedCompressed) in
    let sorted := sortBy (bySizeDescending cache) (List.filter (retained cache) infos) in
    console final =
      LogText "Parsing code" ::
      map LogDiagnostic
          (map (diagnosticFor code c cache) (List.filter (anomalous code cache) infos)) ++
      LogText "Sorting" ::
      map (fun item => LogEntry (attributedSize cache item) total (info_name item)) sorted ++
      [LogSummary (fold_left Z.add (map (attributedSize cache) sorted) 0) total].
Proof.
  intros H. pose proof H as Hfinal.
  apply process_filter_stage in H
    as (parsed & parsedCompressed & kept & s5 & Hparsed & Hcompressed & Hfilter & Hcache).
  exists parsed, parsedCompressed. split; [assumption|]. split; [assumption|].
  cbn zeta. rewrite Hcache.
  rewrite (process_after_filter _ _ _ _ _ _ _ _ Hparsed Hcompressed Hfilter) in Hfinal.
  injection Hfinal as <-. cbn [console].
  pose proof (filterM_retained _ _ _ _ _ _ _ Hfilter) as (_ & _ & -> & _).
  rewrite (filterM_diagnostics _ _ _ _ _ _ _ Hfilter). reflexivity.
Qed.

(** X8. In a run that ends normally every entry of the cache is the
    translation of its offset for the left or for the right boundary:
    the cache may answer for the other boundary, never with anything
    else. *)
Theorem cache_holds_translations code compressedCode c final :
  process parseScript code compressedCode (Some c) = Ok tt final ->
  translationsOnly code (JsString.split (compressedOrCode compressedCode code)) c
                   (indexCache final).
Proof.
  intros H.
  apply process_filter_stage in H
    as (parsed & parsedCompressed & kept & s5 & _ & _ & Hfilter & ->).
  eapply (filterM_fold _ _ _
            (fun s => translationsOnly code
                        (JsString.split (compressedOrCode compressedCode code)) c
                        (indexCache s))); [| |exact Hfilter].
  - intros info s r s' _ Hinv Hr. eapply compressRange_translationsOnly; eauto.
  - intros index v Hlookup. cbn in Hlookup. by rewrite lookup_empty in Hlookup.
Qed.

(** X9. When no extracted definition starts at an offset where one ends,
    the memoization is exact: in a run that ends normally the cache holds,
    for every extracted definition, the translation of its start for the
    left boundary and of its end for the right boundary, so that its size
    is the one a translation without cache gives. *)
Theorem memo_exact_without_shared_offsets code compressedCode c final parsed :
  process parseScript code compressedCode (Some c) = Ok tt final ->
  parseScript code = inr parsed ->
  let infos := yieldElmJsDefinitionInfos parsed in
  let splat := JsString.split (compressedOrCode compressedCode code) in
  Forall (fun a => Forall (fun b => fst (info_range a) <> snd (info_range b)) infos) infos ->
  Forall
    (fun info =>
       exists start' end',
         Contract.translate code splat c (fst (info_range info)) false = inr start' /\
         Contract.translate code splat c (snd (info_range info)) true = inr end' /\
         indexCache final !! fst (info_range info) = Some start' /\
         indexCache final !! snd (info_range info) = Some end' /\
         attributedSize (indexCache final) info = toNumber end' - toNumber start')
    infos.
Proof.
  intros H Hparsed. cbn zeta. intros Hapart.
  apply process_filter_stage in H
    as (parsed' & parsedCompressed & kept & s5 & Hparsed' & _ & Hfilter & ->).
  rewrite Hparsed in Hparsed'. injection Hparsed' as <-.
  set (infos := yieldElmJsDefinitionInfos parsed) in *.
  set (splat := JsString.split (compressedOrCode compressedCode code)) in *.
  assert (Hapart' : forall a b, In a infos -> In b infos ->
                                fst (info_range a) <> snd (info_range b)).
  { intros a b Ha Hb. rewrite List.Forall_forall in Hapart.
    specialize (Hapart a Ha). rewrite List.Forall_forall in Hapart. by apply Hapart. }
  assert (Hexact : exactFor code splat c infos (indexCache s5)).
  { eapply (filterM_fold _ _ _ (fun s => exactFor code splat c infos (indexCache s)));
      [| |exact Hfilter].
    - intros info s r s' Hin Hinv Hr. eapply compressRange_exactFor; eauto.
    - intros index v Hlookup. cbn in Hlookup. by rewrite lookup_empty in Hlookup. }
  pose proof (filterM_retained _ _ _ _ _ _ _ Hfilter) as (_ & Hcov & _).
  apply List.Forall_forall. intros info Hin.
  rewrite List.Forall_forall in Hcov. destruct (Hcov info Hin) as [[a Ha] [b Hb]].
  exists a, b.
  destruct (Hexact _ _ Ha) as [Hleft _]. destruct (Hexact _ _ Hb) as [_ Hright].
  repeat split; eauto.
  unfold attributedSize, cachedNumber. by rewrite Ha, Hb.
Qed.

End RunProperties.

(** An instance: the run on [Sample.twoVars], whose table knows line 1 only. *)
Lemma process_ends_normally_witness :
  Sample.twoVarsParse Sample.twoVars = inr Sample.twoVarsProgram /\
  Sample.twoVarsParse (compressedOrCode (Some Sample.twoVarsMinified) Sample.twoVars)
    = inr Sample.twoVarsMinifiedProgram /\
  exists final,
    process Sample.twoVarsParse Sample.twoVars (Some Sample.twoVarsMinified)
            (Some Sample.overlappingConsumer) = Ok tt final.
Proof.
  assert (H1 : Sample.twoVarsParse Sample.twoVars = inr Sample.twoVarsProgram)
    by (vm_compute; reflexivity).
  assert (H2 : Sample.twoVarsParse
                 (compressedOrCode (Some Sample.twoVarsMinified) Sample.twoVars)
               = inr Sample.twoVarsMinifiedProgram) by (vm_compute; reflexivity).
  assert (H3 : linesInRange Sample.twoVars Sample.overlappingConsumer
                 (JsString.split
                    (compressedOrCode (Some Sample.twoVarsMinified) Sample.twoVars))).
  { intros index right q [= <-]. cbn [line]. simpl. lia. }
  split; [exact H1|]. split; [exact H2|].
  exact (process_ends_normally _ _ _ _ _ _ H1 H2 H3).
Defined.

(** An instance: the run without a consumer. *)
Lemma process_failures_witness :
  process (Sample.parseAs Sample.bundle Sample.bundleProgram) Sample.bundle None None
    = Throw TypeError (mkState ∅ [LogText "Parsing code"]) /\
  (Sample.parseAs Sample.bundle Sample.bundleProgram Sample.bundle = inl TypeError \/
   Sample.parseAs Sample.bundle Sample.bundleProgram
                  (compressedOrCode None Sample.bundle) = inl TypeError \/
   (TypeError = TypeError /\
    ((None : option SourceMapConsumer) = None \/
     exists c, None = Some c /\
               ~ linesInRange Sample.bundle c
                   (JsString.split (compressedOrCode None Sample.bundle))))).
Proof.
  assert (H : process (Sample.parseAs Sample.bundle Sample.bundleProgram)
                      Sample.bundle None None
              = Throw TypeError (mkState ∅ [LogText "Parsing code"])) by reflexivity.
  split; [exact H|].
  exact (process_failures _ _ _ _ _ _ H).
Defined.

(** An instance: the run on [Sample.bundle]. *)
Lemma console_of_a_run_witness :
  process (Sample.parseAs Sample.bundle Sample.bundleProgram) Sample.bundle
          (Some Sample.bundle) (Some Sample.identityConsumer)
    = Ok tt (Sample.finalState Sample.bundleRun) /\
  exists parsed parsedCompressed,
    Sample.parseAs Sample.bundle Sample.bundleProgram Sample.bundle = inr parsed /\
    Sample.parseAs Sample.bundle Sample.bundleProgram
                   (compressedOrCode (Some Sample.bundle) Sample.bundle)
      = inr parsedCompressed.
Proof.
  assert (H : process (Sample.parseAs Sample.bundle Sample.bundleProgram) Sample.bundle
                      (Some Sample.bundle) (Some Sample.identityConsumer)
              = Ok tt (Sample.finalState Sample.bundleRun)) by (vm_compute; reflexivity).
  split; [exact H|].
  destruct (console_of_a_run _ _ _ _ _ H) as (parsed & parsedCompressed & H1 & H2 & _).
  eauto.
Defined.

(** An instance: the run on [Sample.adjacent], where the entry of offset
    27 is the translation for the right boundary. *)
Lemma cache_holds_translations_witness :
  process (Sample.parseAs Sample.adjacent Sample.adjacentProgram) Sample.adjacent
          (Some Sample.adjacent) (Some Sample.identityConsumer)
    = Ok tt (Sample.finalState Sample.adjacentRun) /\
  translationsOnly Sample.adjacent
    (JsString.split (compressedOrCode (Some Sample.adjacent) Sample.adjacent))
    Sample.identityConsumer (indexCache (Sample.finalState Sample.adjacentRun)).
Proof.
  assert (H : process (Sample.parseAs Sample.adjacent Sample.adjacentProgram)
                      Sample.adjacent (Some Sample.adjacent)
                      (Some Sample.identityConsumer)
              = Ok tt (Sample.finalState Sample.adjacentRun)) by (vm_compute; reflexivity).
  split; [exact H|].
  exact (cache_holds_translations _ _ _ _ _ H).
Defined.

(** An instance: the run on [Sample.bundle], whose definitions start at
    13, 34, 40 and end at 29, 39, 43. *)
Lemma memo_exact_without_shared_offsets_witness :
  process (Sample.parseAs Sample.bundle Sample.bundleProgram) Sample.bundle
          (Some Sample.bundle) (Some Sample.identityConsumer)
    = Ok tt (Sample.finalState Sample.bundleRun) /\
  Sample.parseAs Sample.bundle Sample.bundleProgram Sample.bundle
    = inr Sample.bundleProgram /\
  Forall
    (fun info =>
       exists start' end',
         Contract.translate Sample.bundle
           (JsString.split (compressedOrCode (Some Sample.bundle) Sample.bundle))
           Sample.identityConsumer (fst (info_range info)) false = inr start' /\
         Contract.translate Sample.bundle
           (JsString.split (compressedOrCode (Some Sample.bundle) Sample.bundle))
           Sample.identityConsumer (snd (info_range info)) true = inr end' /\
         indexCache (Sample.finalState Sample.bundleRun) !! fst (info_range info)
           = Some start' /\
         indexCache (Sample.finalState Sample.bundleRun) !! snd (info_range info)
           = Some end' /\
         attributedSize (indexCache (Sample.finalState Sample.bundleRun)) info
           = toNumber end' - toNumber start')
    (yieldElmJsDefinitionInfos Sample.bundleProgram).
Proof.
  assert (H : process (Sample.parseAs Sample.bundle Sample.bundleProgram) Sample.bundle
                      (Some Sample.bundle) (Some Sample.identityConsumer)
              = Ok tt (Sample.finalState Sample.bundleRun)) by (vm_compute; reflexivity).
  assert (H2 : Sample.parseAs Sample.bundle Sample.bundleProgram Sample.bundle
               = inr Sample.bundleProgram) by (vm_compute; reflexivity).
  assert (H3 : Forall (fun a => Forall (fun b => fst (info_range a) <> snd (info_range b))
                                       (yieldElmJsDefinitionInfos Sample.bundleProgram))
                      (yieldElmJsDefinitionInfos Sample.bundleProgram)).
  { repeat (constructor; [repeat (constructor; [cbn; lia|]); constructor|]).
    constructor. }
  split; [exact H|]. split; [exact H2|].
  exact (memo_exact_without_shared_offsets _ _ _ _ _ _ H H2 H3).
Defined.

(** ** Extractor: which definitions are yielded *)

Lemma yieldElmJsStatements_In script statement :
  In statement (yieldElmJsStatements script) <->
  exists body,
    In (ExpressionStatement (CallExpression (FunctionExpression body))) (program_body script) /\
    In statement body.
Proof.
  unfold yieldElmJsStatements. rewrite List.in_flat_map. split.
  - intros (e & He & Hin).
    destruct e as [[[| |]|body|]| | |]; try (by destruct Hin). eauto.
  - intros (body & He & Hin). eauto.
Qed.

(** X10. A definition is yielded exactly when a statement directly in the
    body of a function literal that a top-level expression statement
    calls is a function declaration with its name and range, or a
    variable declaration one of whose declarators binds an identifier with
    its name and has its range. Nothing else is yielded: a declaration at
    top level, or in a function that is not called on the spot, gives no
    definition. *)
Theorem yielded_definitions script (d : DefinitionInfo) :
  In d (yieldElmJsDefinitionInfos script) <->
  exists body statement,
    In (ExpressionStatement (CallExpression (FunctionExpression body))) (program_body script) /\
    In statement body /\
    (statement = FunctionDeclaration (info_name d) (info_range d) \/
     exists declarations,
       statement = VariableDeclaration declarations /\
       In (mkDeclarator (Identifier (info_name d)) (info_range d)) declarations).
Proof.
  unfold yieldElmJsDefinitionInfos. rewrite List.in_flat_map. split.
  - intros (statement & Hstatement & Hin).
    apply yieldElmJsStatements_In in Hstatement as (body & Hbody & Hstatement).
    exists body, statement. split; [assumption|]. split; [assumption|].
    apply List.in_app_or in Hin as [Hin|Hin].
    + destruct statement; try (by destruct Hin).
      destruct Hin as [<-|[]]. by left.
    + destruct statement as [| |declarations|]; try (by destruct Hin).
      right. exists declarations. split; [reflexivity|].
      cbn [yieldVariableDeclarationInfos] in Hin.
      apply List.in_flat_map in Hin as ([id range] & Hdecl & Hin).
      cbn [declarator_id declarator_range] in Hin.
      destruct id; try (by destruct Hin). by destruct Hin as [<-|[]].
  - intros (body & statement & Hbody & Hstatement & Hd).
    exists statement. split; [apply yieldElmJsStatements_In; eauto|].
    apply List.in_or_app. destruct Hd as [->|(declarations & -> & Hdecl)].
    + left. destruct d. by left.
    + right. cbn [yieldVariableDeclarationInfos]. apply List.in_flat_map.
      eexists. split; [exact Hdecl|]. destruct d. by left.
Qed.

(** ** The earlier version: cache and attributor *)

Section EarlierTranslator.

Variable code : string.
Variable compressedSplat : list string.
Variable c : SourceMapConsumer.

Local Abbreviation eIndex := (Earlier.compressIndex code compressedSplat (Some c)).
Local Abbreviation eRange := (Earlier.compressRange code compressedSplat (Some c)).
Local Abbreviation sound := (soundCache code compressedSplat c).
Local Abbreviation fresh := (freshSize code compressedSplat c).

Lemma earlier_compressIndex_Ok index left s v s' :
  sound (indexCache s) ->
  eIndex index left s = Ok v s' ->
  earlierTranslate code compressedSplat c index = inr v /\
  sound (indexCache s') /\
  console s' = console s.
Proof.
  intros Hsound. unfold Earlier.compressIndex, bind, cacheLookup.
  destruct (indexCache s !! index) as [w|] eqn:E.
  - intros [= <- <-]. auto.
  - fold (earlierTranslate code compressedSplat c index).
    destruct (earlierTranslate code compressedSplat c index) as [e|w] eqn:Et;
      [discriminate|].
    intros [= <- <-]. cbn [indexCache console]. repeat split; try reflexivity.
    intros j u Hj. destruct (decide (index = j)) as [<-|Hne].
    + rewrite lookup_insert_eq in Hj. by injection Hj as <-.
    + rewrite lookup_insert_ne in Hj by assumption. by apply Hsound.
Qed.

Lemma earlier_compressIndex_Throw index left s e s' :
  eIndex index left s = Throw e s' ->
  e = TypeError /\ s' = s /\
  earlierTranslate code compressedSplat c index = inl TypeError.
Proof.
  unfold Earlier.compressIndex, bind, cacheLookup.
  destruct (indexCache s !! index) as [w|]; [discriminate|].
  fold (earlierTranslate code compressedSplat c index).
  destruct (earlierTranslate code compressedSplat c index) as [e'|w] eqn:Et;
    [|discriminate].
  intros [= <- <-].
  assert (e' = TypeError) as ->; [|auto].
  unfold earlierTranslate, generatedOffset in Et.
  destruct (generatedPositionFor c _) as [p|]; [|discriminate].
  destruct (addLineLengths _ _ _ _) as [e''|z] eqn:E; [|discriminate].
  injection Et as <-. by apply addLineLengths_TypeError in E.
Qed.

Lemma freshOffset_inr index v :
  earlierTranslate code compressedSplat c index = inr v ->
  freshOffset code compressedSplat c index = toNumber v.
Proof. unfold freshOffset. by intros ->. Qed.

(** A range that the earlier attributor returns is the pair of the fresh
    translations; its size is not negative; nothing is printed. *)
Lemma earlier_compressRange_Ok info s r s' :
  sound (indexCache s) ->
  eRange info s = Ok r s' ->
  earlierTranslate code compressedSplat c (fst (info_range info)) = inr (fst r) /\
  earlierTranslate code compressedSplat c (snd (info_range info)) = inr (snd r) /\
  rangeSize (toNumbers r) = fresh info /\
  0 <= fresh info /\
  sound (indexCache s') /\
  console s' = console s.
Proof.
  intros Hsound H. unfold Earlier.compressRange in H.
  apply bind_Ok in H as (a & s1 & Ha & H).
  apply bind_Ok in H as (b & s2 & Hb & H).
  apply earlier_compressIndex_Ok in Ha as (Hta & Hsound1 & Hc1); [|assumption].
  apply earlier_compressIndex_Ok in Hb as (Htb & Hsound2 & Hc2); [|assumption].
  assert (Hsize : rangeSize (toNumbers (a, b)) = fresh info).
  { unfold freshSize. rewrite (freshOffset_inr _ _ Hta), (freshOffset_inr _ _ Htb).
    reflexivity. }
  destruct (Z.ltb_spec (rangeSize (toNumbers (a, b))) 0) as [Hneg|Hpos].
  - unfold bind, consoleLog, throw in H. discriminate.
  - injection H as <- <-. cbn [fst snd]. repeat split; try assumption; try lia.
    congruence.
Qed.

(** The earlier attributor throws a TypeError from a translation, or
    'Invalid negative range' for a negative fresh size, after one
    diagnostic. *)
Lemma earlier_compressRange_Throw info s e s' :
  sound (indexCache s) ->
  eRange info s = Throw e s' ->
  (e = TypeError /\
   (earlierTranslate code compressedSplat c (fst (info_range info)) = inl TypeError \/
    earlierTranslate code compressedSplat c (snd (info_range info)) = inl TypeError)) \/
  (e = InvalidNegativeRange /\ fresh info < 0 /\
   exists d, console s' = console s ++ [LogDiagnostic d]).
Proof.
  intros Hsound H. unfold Earlier.compressRange in H.
  apply bind_Throw in H as [H|(a & s1 & Ha & H)].
  { apply earlier_compressIndex_Throw in H as (-> & _ & Ht). auto. }
  apply bind_Throw in H as [H|(b & s2 & Hb & H)].
  { apply earlier_compressIndex_Throw in H as (-> & _ & Ht). auto. }
  apply earlier_compressIndex_Ok in Ha as (Hta & Hsound1 & Hc1); [|assumption].
  apply earlier_compressIndex_Ok in Hb as (Htb & Hsound2 & Hc2); [|assumption].
  assert (Hsize : rangeSize (toNumbers (a, b)) = fresh info).
  { unfold freshSize. rewrite (freshOffset_inr _ _ Hta), (freshOffset_inr _ _ Htb).
    reflexivity. }
  destruct (Z.ltb_spec (rangeSize (toNumbers (a, b))) 0) as [Hneg|Hpos]; [|discriminate].
  right. unfold bind, consoleLog, throw in H. injection H as <- <-.
  split; [reflexivity|]. split; [lia|]. cbn [console]. rewrite Hc2, Hc1. eauto.
Qed.

(** X11. In the earlier version the memoization is exact: whatever
    offsets are asked from an empty cache, in whatever order and with
    whatever boundary flags, every answer is the translation of its offset
    without cache. *)
Theorem earlier_memo_exact queries answers s' :
  earlierQueries code compressedSplat c queries initialState = Ok answers s' ->
  Forall2 (fun query answer =>
             earlierTranslate code compressedSplat c (fst query) = inr answer)
          queries answers.
Proof.
  assert (Hgen : forall s, sound (indexCache s) ->
            forall answers s',
              earlierQueries code compressedSplat c queries s = Ok answers s' ->
              Forall2 (fun query answer =>
                         earlierTranslate code compressedSplat c (fst query) = inr answer)
                      queries answers).
  { induction queries as [|query rest IH]; intros s Hsound ans s1 H.
    - injection H as <- _. constructor.
    - unfold earlierQueries in H. cbn [mapM] in H.
      apply bind_Ok in H as (v & s0 & Hv & H).
      apply bind_Ok in H as (vs & s2 & Hvs & H). injection H as <- _.
      apply earlier_compressIndex_Ok in Hv as (Ht & Hsound0 & _); [|assumption].
      constructor; [assumption|]. eapply IH; eauto. }
  apply Hgen. intros index v Hlookup. cbn in Hlookup.
  by rewrite lookup_empty in Hlookup.
Qed.

End EarlierTranslator.

(** An instance: the offset 27 of [Sample.adjacent] asked with both
    flags. *)
Lemma earlier_memo_exact_witness :
  let queries := [(27, false); (27, true); (12, true)] in
  earlierQueries Sample.adjacent (JsString.split Sample.adjacent) Sample.identityConsumer
                 queries initialState
    = Ok [Some 27; Some 27; Some 12]
         (mkState (<[ 12 := Some 12 ]> {[ 27 := Some 27 ]}) []) /\
  Forall2 (fun query answer =>
             earlierTranslate Sample.adjacent (JsString.split Sample.adjacent)
                              Sample.identityConsumer (fst query) = inr answer)
          queries [Some 27; Some 27; Some 12].
Proof.
  cbn zeta.
  assert (H : earlierQueries Sample.adjacent (JsString.split Sample.adjacent)
                Sample.identityConsumer [(27, false); (27, true); (12, true)] initialState
              = Ok [Some 27; Some 27; Some 12]
                   (mkState (<[ 12 := Some 12 ]> {[ 27 := Some 27 ]}) []))
    by (vm_compute; reflexivity).
  split; [exact H|].
  exact (earlier_memo_exact _ _ _ _ _ _ H).
Defined.

(** ** The earlier version: runs *)


Section EarlierStages.

Variable code : string.
Variable compressedSplat : list string.
Variable c : SourceMapConsumer.
Variable compressedSize : Z.

Local Abbreviation eRange := (Earlier.compressRange code compressedSplat (Some c)).
Local Abbreviation sound := (soundCache code compressedSplat c).
Local Abbreviation fresh := (freshSize code compressedSplat c).
Local Abbreviation compareSizes :=
  (fun a b : DefinitionInfo =>
     compressedRangeA <- eRange a ;;
     compressedRangeB <- eRange b ;;
     ret (rangeSize (toNumbers compressedRangeB) - rangeSize (toNumbers compressedRangeA))).

Lemma earlier_compare_Ok a b s z s' :
  sound (indexCache s) ->
  compareSizes a b s = Ok z s' ->
  z = byFreshSizeDescending code compressedSplat c a b /\
  sound (indexCache s') /\ console s' = console s.
Proof.
  intros Hsound H.
  apply bind_Ok in H as (ra & s1 & Ha & H).
  apply bind_Ok in H as (rb & s2 & Hb & H). injection H as <- <-.
  apply earlier_compressRange_Ok in Ha as (_ & _ & Hza & _ & Hsound1 & Hc1); [|assumption].
  apply earlier_compressRange_Ok in Hb as (_ & _ & Hzb & _ & Hsound2 & Hc2); [|assumption].
  unfold byFreshSizeDescending. rewrite Hza, Hzb. repeat split; (assumption || congruence).
Qed.

Lemma earlier_insertM_Ok x sorted s l s' :
  sound (indexCache s) ->
  insertM compareSizes x sorted s = Ok l s' ->
  l = insertBy (byFreshSizeDescending code compressedSplat c) x sorted /\
  sound (indexCache s') /\ console s' = console s.
Proof.
  revert s l s'. induction sorted as [|y rest IH]; intros s l s' Hsound H.
  - injection H as <- <-. auto.
  - cbn [insertM insertBy] in *.
    apply bind_Ok in H as (z & s1 & Hz & H).
    apply earlier_compare_Ok in Hz as (-> & Hsound1 & Hc1); [|assumption].
    destruct (_ <=? 0).
    + injection H as <- <-. auto.
    + apply bind_Ok in H as (rest' & s2 & Hrest & H). injection H as <- <-.
      apply IH in Hrest as (-> & Hsound2 & Hc2); [|assumption].
      repeat split; (assumption || congruence).
Qed.

Lemma earlier_sortM_Ok infos s l s' :
  sound (indexCache s) ->
  sortM compareSizes infos s = Ok l s' ->
  l = sortBy (byFreshSizeDescending code compressedSplat c) infos /\
  sound (indexCache s') /\ console s' = console s.
Proof.
  revert s l s'. induction infos as [|x rest IH]; intros s l s' Hsound H.
  - injection H as <- <-. auto.
  - cbn [sortM sortBy] in *.
    apply bind_Ok in H as (sorted & s1 & Hsorted & H).
    apply IH in Hsorted as (-> & Hsound1 & Hc1); [|assumption].
    apply earlier_insertM_Ok in H as (-> & Hsound2 & Hc2); [|assumption].
    repeat split; (assumption || congruence).
Qed.

Lemma earlier_forEachM_Ok infos s s' :
  sound (indexCache s) ->
  forEachM (fun item =>
              r <- eRange item ;;
              consoleLog (LogEntry (rangeSize (toNumbers r)) compressedSize
                                   (info_name item))) infos s = Ok tt s' ->
  sound (indexCache s') /\
  console s' = console s ++
               map (fun item => LogEntry (fresh item) compressedSize (info_name item)) infos /\
  Forall (fun item => 0 <= fresh item) infos.
Proof.
  revert s. induction infos as [|x rest IH]; intros s Hsound H.
  - injection H as <-. rewrite app_nil_r. auto.
  - cbn [forEachM] in H.
    apply bind_Ok in H as ([] & s1 & Hx & H).
    apply bind_Ok in Hx as (r & s0 & Hr & Hlog). injection Hlog as <-.
    apply earlier_compressRange_Ok in Hr as (_ & _ & Hz & Hpos & Hsound0 & Hc0);
      [|assumption].
    apply IH in H as (Hsound' & Hc' & Hall); [|assumption].
    split; [assumption|]. split; [|by constructor].
    rewrite Hc'. cbn [console map]. rewrite Hc0, Hz, <- app_assoc. reflexivity.
Qed.

Lemma earlier_mapM_Ok infos s sizes s' :
  sound (indexCache s) ->
  mapM (fun item => r <- eRange item ;; ret (rangeSize (toNumbers r))) infos s
    = Ok sizes s' ->
  sizes = map fresh infos /\ console s' = console s.
Proof.
  revert s sizes. induction infos as [|x rest IH]; intros s sizes Hsound H.
  - injection H as <- <-. auto.
  - cbn [mapM] in H.
    apply bind_Ok in H as (z & s1 & Hx & H).
    apply bind_Ok in Hx as (r & s0 & Hr & Hret). injection Hret as <- <-.
    apply bind_Ok in H as (zs & s2 & Hrest & H). injection H as <- <-.
    apply earlier_compressRange_Ok in Hr as (_ & _ & Hz & _ & Hsound0 & Hc0);
      [|assumption].
    apply IH in Hrest as (-> & Hc2); [|assumption].
    cbn [map]. rewrite Hz. split; congruence.
Qed.

(** With every line of the table inside the minified text, no
    translation throws. *)
Lemma earlier_translate_inRange index :
  linesInRange code c compressedSplat ->
  earlierTranslate code compressedSplat c index <> inl TypeError.
Proof.
  intros Hlines. unfold earlierTranslate, generatedOffset.
  destruct (generatedPositionFor c _) as [q|] eqn:Eq; [|discriminate].
  apply (Hlines index false) in Eq.
  pose proof (addLineLengths_firstn compressedSplat (Z.to_nat (line q - 1)) 0 (column q))
    as Hsum.
  change (Z.of_nat 0 + 1) with 1 in Hsum. rewrite Hsum by lia. discriminate.
Qed.

Local Abbreviation negative := (fun item : DefinitionInfo => fresh item < 0).

Lemma earlier_compressRange_aborts info s e s' :
  linesInRange code c compressedSplat ->
  sound (indexCache s) ->
  eRange info s = Throw e s' ->
  e = InvalidNegativeRange /\ negative info /\
  exists d, console s' = console s ++ [LogDiagnostic d].
Proof.
  intros Hlines Hsound H.
  apply earlier_compressRange_Throw in H as [(_ & [Ht|Ht])|H];
    [by apply earlier_translate_inRange in Ht.. | exact H | assumption].
Qed.

Lemma earlier_compare_aborts a b s e s' :
  linesInRange code c compressedSplat ->
  sound (indexCache s) ->
  compareSizes a b s = Throw e s' ->
  e = InvalidNegativeRange /\ (negative a \/ negative b) /\
  exists d, console s' = console s ++ [LogDiagnostic d].
Proof.
  intros Hlines Hsound H.
  apply bind_Throw in H as [H|(ra & s1 & Ha & H)].
  - apply earlier_compressRange_aborts in H as (-> & Hneg & d & Hd); eauto 6.
  - apply earlier_compressRange_Ok in Ha as (_ & _ & _ & _ & Hsound1 & Hc1); [|assumption].
    apply bind_Throw in H as [H|(rb & s2 & Hb & H)]; [|discriminate].
    apply earlier_compressRange_aborts in H as (-> & Hneg & d & Hd); [|assumption..].
    rewrite Hc1 in Hd. eauto 6.
Qed.

Lemma earlier_insertM_aborts x sorted s e s' :
  linesInRange code c compressedSplat ->
  sound (indexCache s) ->
  insertM compareSizes x sorted s = Throw e s' ->
  e = InvalidNegativeRange /\ Exists negative (x :: sorted) /\
  exists d, console s' = console s ++ [LogDiagnostic d].
Proof.
  intros Hlines. revert s. induction sorted as [|y rest IH]; intros s Hsound H;
    [discriminate|].
  cbn [insertM] in H. apply bind_Throw in H as [H|(z & s1 & Hz & H)].
  - apply earlier_compare_aborts in H as (-> & Hneg & Hd); [|assumption..].
    split; [reflexivity|]. split; [|exact Hd].
    destruct Hneg; [by apply Exists_cons_hd | by apply Exists_cons_tl, Exists_cons_hd].
  - apply earlier_compare_Ok in Hz as (_ & Hsound1 & Hc1); [|assumption].
    destruct (z <=? 0); [discriminate|].
    apply bind_Throw in H as [H|(l & s2 & _ & H)]; [|discriminate].
    apply IH in H as (-> & Hneg & d & Hd); [|assumption].
    split; [reflexivity|]. split; [|rewrite Hc1 in Hd; eauto].
    apply Exists_cons in Hneg as [Hneg|Hneg];
      [by apply Exists_cons_hd | by do 2 apply Exists_cons_tl].
Qed.

Lemma earlier_sortM_aborts infos s e s' :
  linesInRange code c compressedSplat ->
  sound (indexCache s) ->
  sortM compareSizes infos s = Throw e s' ->
  e = InvalidNegativeRange /\ Exists negative infos /\
  exists d, console s' = console s ++ [LogDiagnostic d].
Proof.
  intros Hlines. revert s e s'. induction infos as [|x rest IH]; intros s e s' Hsound H;
    [discriminate|].
  cbn [sortM] in H. apply bind_Throw in H as [H|(sorted & s1 & Hsorted & H)].
  - apply IH in H as (-> & Hneg & Hd); [|assumption].
    split; [reflexivity|]. split; [by apply Exists_cons_tl | exact Hd].
  - apply earlier_sortM_Ok in Hsorted as (-> & Hsound1 & Hc1); [|assumption].
    apply earlier_insertM_aborts in H as (-> & Hneg & d & Hd); [|assumption..].
    split; [reflexivity|]. split; [|rewrite Hc1 in Hd; eauto].
    apply List.Exists_exists in Hneg as (item & Hin & Hneg).
    apply List.Exists_exists. exists item. split; [|exact Hneg].
    eapply Permutation_in; [|exact Hin].
    constructor. apply (sortBy_Permutation fresh).
Qed.

Lemma earlier_forEachM_aborts infos s e s' :
  linesInRange code c compressedSplat ->
  sound (indexCache s) ->
  forEachM (fun item =>
              r <- eRange item ;;
              consoleLog (LogEntry (rangeSize (toNumbers r)) compressedSize
                                   (info_name item))) infos s = Throw e s' ->
  e = InvalidNegativeRange /\ Exists negative infos /\
  exists printed d,
    console s' = console s ++
                 map (fun item => LogEntry (fresh item) compressedSize (info_name item))
                     printed ++ [LogDiagnostic d].
Proof.
  intros Hlines. revert s. induction infos as [|x rest IH]; intros s Hsound H;
    [discriminate|].
  cbn [forEachM] in H. apply bind_Throw in H as [H|([] & s1 & Hx & H)].
  - apply bind_Throw in H as [H|(r & s0 & _ & H)]; [|discriminate].
    apply earlier_compressRange_aborts in H as (-> & Hneg & d & Hd); [|assumption..].
    split; [reflexivity|]. split; [by apply Exists_cons_hd|].
    exists [], d. exact Hd.
  - apply bind_Ok in Hx as (r & s0 & Hr & Hlog). injection Hlog as <-.
    apply earlier_compressRange_Ok in Hr as (_ & _ & Hz & _ & Hsound0 & Hc0);
      [|assumption].
    apply IH in H as (-> & Hneg & printed & d & Hd); [|assumption].
    split; [reflexivity|]. split; [by apply Exists_cons_tl|].
    exists (x :: printed), d. rewrite Hd. cbn [console map].
    rewrite Hc0, Hz, <- app_assoc. reflexivity.
Qed.

Lemma earlier_mapM_aborts infos s e s' :
  linesInRange code c compressedSplat ->
  sound (indexCache s) ->
  mapM (fun item => r <- eRange item ;; ret (rangeSize (toNumbers r))) infos s
    = Throw e s' ->
  e = InvalidNegativeRange /\ Exists negative infos /\
  exists d, console s' = console s ++ [LogDiagnostic d].
Proof.
  intros Hlines. revert s. induction infos as [|x rest IH]; intros s Hsound H;
    [discriminate|].
  cbn [mapM] in H. apply bind_Throw in H as [H|(z & s1 & Hx & H)].
  - apply bind_Throw in H as [H|(r & s0 & _ & H)]; [|discriminate].
    apply earlier_compressRange_aborts in H as (-> & Hneg & Hd); [|assumption..].
    split; [reflexivity|]. split; [by apply Exists_cons_hd | exact Hd].
  - apply bind_Ok in Hx as (r & s0 & Hr & Hret). injection Hret as _ <-.
    apply earlier_compressRange_Ok in Hr as (_ & _ & _ & _ & Hsound0 & Hc0);
      [|assumption].
    apply bind_Throw in H as [H|(zs & s2 & _ & H)]; [|discriminate].
    apply IH in H as (-> & Hneg & d & Hd); [|assumption].
    split; [reflexivity|]. split; [by apply Exists_cons_tl|].
    rewrite Hc0 in Hd. eauto.
Qed.

End EarlierStages.

Lemma reportDiagnostics_entries {A} (size : A -> Z) (name : A -> string) total l :
  reportDiagnostics (map (fun a => LogEntry (size a) total (name a)) l) = [].
Proof. induction l as [|x l IH]; [reflexivity | exact IH]. Qed.

Section EarlierRuns.

Variable parseScript : string -> Exception + Program.

(** The console of a run of the earlier version that ends normally. *)
Lemma earlier_process_Ok code compressedCode consumer final :
  Earlier.process parseScript code compressedCode consumer = Ok tt final ->
  exists c parsed parsedCompressed,
    consumer = Some c /\
    parseScript code = inr parsed /\
    parseScript (compressedOrCode compressedCode code) = inr parsedCompressed /\
    let splat := JsString.split (compressedOrCode compressedCode code) in
    let total := rangeSize (program_range parsedCompressed) in
    let sorted := sortBy (byFreshSizeDescending code splat c)
                         (yieldElmJsDefinitionInfos parsed) in
    Forall (fun item => 0 <= freshSize code splat c item) sorted /\
    console final =
      LogText "Parsing code" :: LogText "Sorting" ::
      map (fun item => LogEntry (freshSize code splat c item) total (info_name item))
          sorted ++
      [LogSummary (fold_left Z.add (map (freshSize code splat c) sorted) 0) total].
Proof.
  unfold Earlier.process. intros H.
  apply bind_Ok in H as ([] & s1 & Hlog & H). injection Hlog as <-.
  apply bind_Ok in H as ([] & s2 & Hspans & H).
  destruct consumer as [c|]; [|discriminate]. injection Hspans as <-.
  apply bind_Ok in H as (parsed & s3 & Hparsed & H).
  apply liftResult_Ok in Hparsed as [Hparsed ->].
  apply bind_Ok in H as (parsedCompressed & s4 & Hcompressed & H).
  apply liftResult_Ok in Hcompressed as [Hcompressed ->].
  apply bind_Ok in H as ([] & s5 & Hlog & H). injection Hlog as <-.
  apply bind_Ok in H as (sorted & s6 & Hsort & H).
  apply earlier_sortM_Ok in Hsort as (-> & Hsound6 & Hc6);
    [|intros index v Hlookup; cbn in Hlookup; by rewrite lookup_empty in Hlookup].
  apply bind_Ok in H as ([] & s7 & Heach & H).
  apply earlier_forEachM_Ok in Heach as (Hsound7 & Hc7 & Hall); [|assumption].
  apply bind_Ok in H as (sizes & s8 & Hmap & H).
  apply earlier_mapM_Ok in Hmap as (-> & Hc8); [|assumption].
  injection H as <-.
  exists c, parsed, parsedCompressed. repeat split; try assumption.
  cbn [console]. rewrite Hc8, Hc7, Hc6. reflexivity.
Qed.

(** X12. A run of the earlier version that ends normally reports every
    extracted definition, whatever its name: the entries are all the
    extracted definitions with the sizes that translations without cache
    give, none of them negative, sorted by size descending with equal
    sizes in the order of extraction; the summary holds their sum; no
    diagnostic is printed. *)
Theorem earlier_report code compressedCode c final parsed :
  Earlier.process parseScript code compressedCode (Some c) = Ok tt final ->
  parseScript code = inr parsed ->
  let splat := JsString.split (compressedOrCode compressedCode code) in
  let entry := fun item => (info_name item, freshSize code splat c item) in
  let infos := yieldElmJsDefinitionInfos parsed in
  let entries := reportEntries (console final) in
  Permutation entries (map entry infos) /\
  Forall (fun e => 0 <= snd e) entries /\
  Sorted (fun a b => snd a >= snd b) entries /\
  (forall k,
      List.filter (fun e => snd e =? k) entries
      = map entry (List.filter (fun item => freshSize code splat c item =? k) infos)) /\
  (exists total,
      reportSummaries (console final) = [(fold_left Z.add (map snd entries) 0, total)]) /\
  reportDiagnostics (console final) = [].
Proof.
  intros H Hparsed. cbn zeta.
  apply earlier_process_Ok in H
    as (c' & parsed' & pc & [= <-] & Hparsed' & _ & Hall & Hconsole).
  rewrite Hparsed in Hparsed'. injection Hparsed' as <-.
  set (splat := JsString.split (compressedOrCode compressedCode code)) in *.
  set (size := freshSize code splat c) in *.
  set (sorted := sortBy (byFreshSizeDescending code splat c)
                        (yieldElmJsDefinitionInfos parsed)) in *.
  assert (Hentries : reportEntries (console final)
                     = map (fun item => (info_name item, size item)) sorted).
  { rewrite Hconsole.
    change (LogText "Parsing code" :: LogText "Sorting" :: ?l)
      with ([LogText "Parsing code"; LogText "Sorting"] ++ l).
    rewrite !reportEntries_app, reportEntries_entries. cbn. by rewrite app_nil_r. }
  rewrite Hentries. split; [|split; [|split; [|split; [|split]]]].
  - apply Permutation_map. apply (sortBy_Permutation size).
  - apply List.Forall_map. exact Hall.
  - apply Sorted_map. cbn [snd]. apply (sortBy_Sorted size).
  - intros k. rewrite filter_map_commute. cbn [snd]. f_equal.
    apply (sortBy_stable size).
  - eexists. rewrite Hconsole.
    change (LogText "Parsing code" :: LogText "Sorting" :: ?l)
      with ([LogText "Parsing code"; LogText "Sorting"] ++ l).
    rewrite !reportSummaries_app, reportSummaries_entries. cbn.
    by rewrite List.map_map.
  - rewrite Hconsole. unfold reportDiagnostics.
    change (LogText "Parsing code" :: LogText "Sorting" :: ?l)
      with ([LogText "Parsing code"; LogText "Sorting"] ++ l).
    rewrite !omap_app.
    pose proof (reportDiagnostics_entries size info_name (rangeSize (program_range pc))
                  sorted) as Hnone.
    unfold reportDiagnostics in Hnone. rewrite Hnone. reflexivity.
Qed.

(** A run of the earlier version that throws although both texts parse
    and the table stays inside the minified text. *)
Lemma earlier_process_Throw code compressedCode c parsed parsedCompressed e s :
  parseScript code = inr parsed ->
  parseScript (compressedOrCode compressedCode code) = inr parsedCompressed ->
  let splat := JsString.split (compressedOrCode compressedCode code) in
  linesInRange code c splat ->
  Earlier.process parseScript code compressedCode (Some c) = Throw e s ->
  e = InvalidNegativeRange /\
  Exists (fun item => freshSize code splat c item < 0) (yieldElmJsDefinitionInfos parsed) /\
  reportSummaries (console s) = [] /\
  exists d, reportDiagnostics (console s) = [d].
Proof.
  intros Hparsed Hcompressed splat Hlines E. unfold Earlier.process in E.
  fold splat in E.
  set (size := freshSize code splat c) in *.
  apply bind_Throw in E as [E|([] & s1 & Hlog & E)]; [discriminate|].
  injection Hlog as <-.
  apply bind_Throw in E as [E|([] & s2 & Hspans & E)]; [discriminate|].
  injection Hspans as <-.
  apply bind_Throw in E as [E|(parsed' & s3 & Hparsed' & E)];
    [unfold liftResult in E; rewrite Hparsed in E; discriminate|].
  apply liftResult_Ok in Hparsed' as [Hparsed' ->].
  rewrite Hparsed in Hparsed'. injection Hparsed' as <-.
  apply bind_Throw in E as [E|(pc & s4 & Hpc & E)];
    [unfold liftResult in E; rewrite Hcompressed in E; discriminate|].
  apply liftResult_Ok in Hpc as [_ ->].
  apply bind_Throw in E as [E|([] & s5 & Hlog & E)]; [discriminate|].
  injection Hlog as <-.
  assert (Hsound : soundCache code splat c
                     (indexCache (mkState ∅ [LogText "Parsing code"; LogText "Sorting"]))).
  { intros index v Hlookup. cbn in Hlookup. by rewrite lookup_empty in Hlookup. }
  apply bind_Throw in E as [E|(sorted & s6 & Hsort & E)].
  { apply earlier_sortM_aborts in E as (-> & Hneg & d & ->); [|assumption..].
    repeat split; [exact Hneg | by exists d]. }
  apply earlier_sortM_Ok in Hsort as (-> & Hsound6 & Hc6); [|assumption].
  assert (Hback : Exists (fun item => size item < 0)
                         (sortBy (byFreshSizeDescending code splat c)
                                 (yieldElmJsDefinitionInfos parsed)) ->
                  Exists (fun item => size item < 0) (yieldElmJsDefinitionInfos parsed)).
  { intros Hneg. apply List.Exists_exists in Hneg as (item & Hin & Hneg).
    apply List.Exists_exists. exists item. split; [|exact Hneg].
    eapply Permutation_in; [|exact Hin]. apply (sortBy_Permutation size). }
  apply bind_Throw in E as [E|([] & s7 & Heach & E)].
  { apply earlier_forEachM_aborts in E as (-> & Hneg & printed & d & Hd); [|assumption..].
    split; [reflexivity|]. split; [by apply Hback|].
    rewrite Hd, Hc6. cbn [console]. split.
    - rewrite !reportSummaries_app, reportSummaries_entries. reflexivity.
    - exists d. unfold reportDiagnostics. rewrite !omap_app.
      fold (reportDiagnostics
              (map (fun item => LogEntry (size item)
                                  (rangeSize (program_range pc)) (info_name item)) printed)).
      rewrite reportDiagnostics_entries. reflexivity. }
  apply earlier_forEachM_Ok in Heach as (Hsound7 & Hc7 & _); [|assumption].
  apply bind_Throw in E as [E|(sizes & s8 & _ & E)]; [|discriminate].
  apply earlier_mapM_aborts in E as (-> & Hneg & d & Hd); [|assumption..].
  split; [reflexivity|]. split; [by apply Hback|].
  rewrite Hd, Hc7, Hc6. cbn [console]. split.
  - rewrite !reportSummaries_app, reportSummaries_entries. reflexivity.
  - exists d. unfold reportDiagnostics. rewrite !omap_app.
    fold (reportDiagnostics
            (map (fun item => LogEntry (size item)
                                (rangeSize (program_range pc)) (info_name item))
                 (sortBy (byFreshSizeDescending code splat c)
                         (yieldElmJsDefinitionInfos parsed)))).
    rewrite reportDiagnostics_entries. reflexivity.
Qed.

(** X13. In the earlier version one negative range ends the whole run.
    When both texts parse and the table sends every position of the
    source to a line of the minified text, the run ends normally exactly
    when no extracted definition has a negative size; otherwise it throws
    'Invalid negative range' after one diagnostic and without a
    summary. *)
Theorem earlier_run_outcome code compressedCode c parsed parsedCompressed :
  parseScript code = inr parsed ->
  parseScript (compressedOrCode compressedCode code) = inr parsedCompressed ->
  linesInRange code c (JsString.split (compressedOrCode compressedCode code)) ->
  earlierOutcome code (JsString.split (compressedOrCode compressedCode code)) c
                 (yieldElmJsDefinitionInfos parsed)
                 (Earlier.process parseScript code compressedCode (Some c)).
Proof.
  intros Hparsed Hcompressed Hlines.
  destruct (Earlier.process parseScript code compressedCode (Some c)) as [[] final|e s] eqn:E;
    unfold earlierOutcome.
  - apply earlier_process_Ok in E
      as (c' & parsed' & pc & [= <-] & Hparsed' & _ & Hall & _).
    rewrite Hparsed in Hparsed'. injection Hparsed' as <-.
    eapply Permutation_Forall; [|exact Hall].
    apply (sortBy_Permutation
             (freshSize code (JsString.split (compressedOrCode compressedCode code)) c)).
  - eapply earlier_process_Throw; eauto.
Qed.

End EarlierRuns.

(** An instance: the earlier run on [Sample.bundle], which also reports
    the definition [d]. *)
Lemma earlier_report_witness :
  let run := Earlier.process (Sample.parseAs Sample.bundle Sample.bundleProgram)
                             Sample.bundle (Some Sample.bundle)
                             (Some Sample.identityConsumer) in
  run = Ok tt (Sample.finalState run) /\
  reportEntries (console (Sample.finalState run)) = [("F$a", 16); ("b$c", 5); ("d", 3)] /\
  Sorted (fun a b => snd a >= snd b) (reportEntries (console (Sample.finalState run))).
Proof.
  cbn zeta.
  assert (H : Earlier.process (Sample.parseAs Sample.bundle Sample.bundleProgram)
                Sample.bundle (Some Sample.bundle) (Some Sample.identityConsumer)
              = Ok tt (Sample.finalState
                         (Earlier.process (Sample.parseAs Sample.bundle Sample.bundleProgram)
                            Sample.bundle (Some Sample.bundle)
                            (Some Sample.identityConsumer))))
    by (vm_compute; reflexivity).
  assert (Hparsed : Sample.parseAs Sample.bundle Sample.bundleProgram Sample.bundle
                    = inr Sample.bundleProgram) by (vm_compute; reflexivity).
  split; [exact H|]. split; [vm_compute; reflexivity|].
  destruct (earlier_report _ _ _ _ _ _ H Hparsed) as (_ & _ & Hsorted & _).
  exact Hsorted.
Defined.

(** An instance: the declaration of [Sample.oneVar] under a table that
    sends its start behind its end. *)
Lemma earlier_run_outcome_witness :
  let run := Earlier.process (Sample.parseAs Sample.oneVar Sample.oneVarProgram)
                             Sample.oneVar (Some Sample.oneVar) (Some reversingConsumer) in
  linesInRange Sample.oneVar reversingConsumer
               (JsString.split (compressedOrCode (Some Sample.oneVar) Sample.oneVar)) /\
  (exists s, run = Throw InvalidNegativeRange s) /\
  earlierOutcome Sample.oneVar
                 (JsString.split (compressedOrCode (Some Sample.oneVar) Sample.oneVar))
                 reversingConsumer
                 (yieldElmJsDefinitionInfos Sample.oneVarProgram) run.
Proof.
  cbn zeta.
  assert (H1 : Sample.parseAs Sample.oneVar Sample.oneVarProgram Sample.oneVar
               = inr Sample.oneVarProgram) by (vm_compute; reflexivity).
  assert (H2 : Sample.parseAs Sample.oneVar Sample.oneVarProgram
                 (compressedOrCode (Some Sample.oneVar) Sample.oneVar)
               = inr Sample.oneVarProgram) by (vm_compute; reflexivity).
  assert (H3 : linesInRange Sample.oneVar reversingConsumer
                 (JsString.split (compressedOrCode (Some Sample.oneVar) Sample.oneVar))).
  { intros index right q [= <-]. cbn [line]. simpl. lia. }
  split; [exact H3|]. split; [eexists; vm_compute; reflexivity|].
  exact (earlier_run_outcome _ _ _ _ _ _ H1 H2 H3).
Defined.
